(** * shardmap: a sharded hash map, checked sequentially

    A shallow embedding of [map.go] (package [shardmap]).  The Go methods
    mutate a [*Map]; here every method takes the map and returns the new map
    next to its results.  A run-time panic, a lock that can never be taken
    and a loop that never ends are the [Fail] outcomes of the [res] monad,
    so a theorem of the form [op m = Ret _] says that the call returns.

    The embedding follows one goroutine.  The mutexes are kept as data:
    every [Lock]/[Unlock] of the source is a step on the state of the
    mutex it names. *)

From stdpp Require Import gmap strings list fin_maps.
From Stdlib Require Import ZArith Lia.

Local Open Scope Z_scope.

(** ** Go integers on a 64-bit platform *)

(** [uint64(z)]: the value modulo 2^64. *)
Definition to_uint64 (z : Z) : Z := z mod 2 ^ 64.

(** [int(z)] and every [int] result: two's complement on 64 bits. *)
Definition to_int (z : Z) : Z := (z + 2 ^ 63) mod 2 ^ 64 - 2 ^ 63.

(** ** Outcomes of a call *)

Inductive fault : Type :=
  | IndexOutOfRange      (* slice index out of range *)
  | DivideByZero         (* integer divide by zero *)
  | MakeOutOfRange       (* make([]T, n) with n < 0 *)
  | Deadlock             (* a lock that is held is requested again *)
  | UnlockOfUnlocked     (* sync: unlock of unlocked mutex *)
  | NoTermination.       (* a loop ran out of fuel *)

Inductive res (A : Type) : Type :=
  | Ret (a : A)
  | Fail (e : fault).
Arguments Ret {A} a.
Arguments Fail {A} e.

Global Instance res_ret : MRet res := fun A a => Ret a.
Global Instance res_bind : MBind res := fun A B f r =>
  match r with
  | Ret a => f a
  | Fail e => Fail e
  end.

(** ** Slices *)

(** [l[i]] *)
Definition index {A} (l : list A) (i : Z) : res A :=
  if decide (0 ≤ i) then
    match l !! Z.to_nat i with
    | Some x => Ret x
    | None => Fail IndexOutOfRange
    end
  else Fail IndexOutOfRange.

(** [l[i] = x] *)
Definition assign {A} (l : list A) (i : Z) (x : A) : res (list A) :=
  _ ← index l i; Ret (<[Z.to_nat i := x]> l).

(** [make([]T, n)], every element set to [x] *)
Definition make {A} (n : Z) (x : A) : res (list A) :=
  if decide (n < 0) then Fail MakeOutOfRange else Ret (replicate (Z.to_nat n) x).

(** [a / b] on [int]: truncated division *)
Definition int_div (a b : Z) : res Z :=
  if decide (b = 0) then Fail DivideByZero else Ret (to_int (a ÷ b)).

(** ** sync.RWMutex, as seen by one goroutine *)

Module sync.

Record RWMutex : Type := { writer : bool; readers : nat }.

(** The zero value: an unlocked mutex. *)
Definition zero : RWMutex := {| writer := false; readers := 0 |}.

Definition Lock (mu : RWMutex) : res RWMutex :=
  if writer mu then Fail Deadlock
  else match readers mu with
       | O => Ret {| writer := true; readers := 0 |}
       | S _ => Fail Deadlock
       end.

Definition Unlock (mu : RWMutex) : res RWMutex :=
  if writer mu then Ret {| writer := false; readers := readers mu |}
  else Fail UnlockOfUnlocked.

Definition RLock (mu : RWMutex) : res RWMutex :=
  if writer mu then Fail Deadlock
  else Ret {| writer := false; readers := S (readers mu) |}.

Definition RUnlock (mu : RWMutex) : res RWMutex :=
  match readers mu with
  | O => Fail UnlockOfUnlocked
  | S n => Ret {| writer := writer mu; readers := n |}
  end.

End sync.

(** ** Values

    A Go [interface{}] is [nil] or holds a dynamic value; [T] is the type
    of the dynamic values. *)

Definition iface (T : Type) : Type := option T.
Definition nil {T : Type} : iface T := None.

(** ** The shard store *)

Module rhh.

Section Store.
Context {T : Type}.

(** Modelled from the spec: the store of one shard, package
    [github.com/tidwall/rhh], of which the repository has only the
    calls.  Section 6 of the spec lists what it offers: [new] with a
    capacity hint, [set], [get], [delete], [len] and [range] with an
    early stop.  The hint is kept as given; the entries are a finite
    map and [range] walks them in the order of [map_to_list]. *)
Record Map : Type := { cap : Z; data : gmap string (iface T) }.

Definition New (cap : Z) : Map := {| cap := cap; data := ∅ |}.

Definition Set_ (key : string) (value : iface T) (m : Map)
  : (iface T * bool) * Map :=
  let m' := {| cap := cap m; data := <[key := value]> (data m) |} in
  match data m !! key with
  | Some old => ((old, true), m')
  | None => ((nil, false), m')
  end.

Definition Get (key : string) (m : Map) : iface T * bool :=
  match data m !! key with
  | Some v => (v, true)
  | None => (nil, false)
  end.

Definition Delete (key : string) (m : Map) : (iface T * bool) * Map :=
  match data m !! key with
  | Some old => ((old, true), {| cap := cap m; data := delete key (data m) |})
  | None => ((nil, false), m)
  end.

Definition Len (m : Map) : Z := to_int (Z.of_nat (size (data m))).

(** The walk of [range]: [iter] is a closure, so it takes and returns
    the state [St] of what it captured; the walk stops at the first
    [false]. *)
Fixpoint walk {St : Type} (iter : string → iface T → St → bool * St)
    (l : list (string * iface T)) (s : St) : St :=
  match l with
  | [] => s
  | (key, value) :: l' =>
      let '(more, s') := iter key value s in
      if more then walk iter l' s' else s'
  end.

Definition Range {St : Type} (iter : string → iface T → St → bool * St)
    (m : Map) (s : St) : St :=
  walk iter (map_to_list (data m)) s.

End Store.

Arguments Map : clear implicits.

End rhh.

(** ** A key hash for the examples

    Any function will do as the hash; the examples route keys by their
    first byte and their length. *)
Definition example_hash (key : string) : Z :=
  match key with
  | EmptyString => 0
  | String c _ => Z.of_N (Ascii.N_of_ascii c) * 31 + Z.of_nat (String.length key)
  end.

(** ** The keys of the benchmark

    [func randKey(rnd *rand.Rand, n int) string] of the benchmark program
    (package [main]).  [rnd.Read(s)] fills all of [s]; [read i] is the byte
    it puts at index [i].  The loop then turns every byte into a letter. *)

(** A [byte] result: the value modulo 256. *)
Definition to_byte (z : Z) : Z := z mod 256.

(** [string(s)] *)
Definition string_of_bytes (s : list Z) : string :=
  foldr (λ b key, String (Ascii.ascii_of_N (Z.to_N b)) key) EmptyString s.

Definition randKey (read : nat → Z) (n : Z) : res string :=
  s ← make n 0;
  let s := imap (λ i _, to_byte (read i)) s in
  let s := (λ b, to_byte (97 + b `mod` 26)) <$> s in
  Ret (string_of_bytes s).

(** ** The sharded map *)

Section Shardmap.

(** The dynamic values stored in the map. *)
Context {T : Type}.

(** [xxhash.Sum64String]: package [github.com/cespare/xxhash] is outside
    the repository.  It is any function from keys to hashes; its results
    are [uint64], and nothing below depends on their range. *)
Variable Sum64String : string → Z.

(** [runtime.NumCPU()], the same at every call. *)
Variable NumCPU : Z.

(** [type Map struct].  [init] is the [sync.Once]: whether its [Do] has
    run.  [maps] holds the stores the pointers of the source refer to;
    each pointer comes from its own [rhh.New], so no two slots share a
    store. *)
Record Map : Type := {
  init : bool;
  cap : Z;
  shards : Z;
  mus : list sync.RWMutex;
  maps : list (rhh.Map T)
}.

Definition set_mus (m : Map) (l : list sync.RWMutex) : Map :=
  {| init := init m; cap := cap m; shards := shards m; mus := l; maps := maps m |}.

Definition set_maps (m : Map) (l : list (rhh.Map T)) : Map :=
  {| init := init m; cap := cap m; shards := shards m; mus := mus m; maps := l |}.

(** [m.mus[i].f()] for [f] one of the four lock methods *)
Definition mus_do (f : sync.RWMutex → res sync.RWMutex) (i : Z) (m : Map) : res Map :=
  mu ← index (mus m) i;
  mu' ← f mu;
  Ret (set_mus m (<[Z.to_nat i := mu']> (mus m))).

(** [m.maps[i].f(...)] for a method [f] that may change the store *)
Definition maps_do {R : Type} (f : rhh.Map T → R * rhh.Map T) (i : Z) (m : Map)
  : res (R * Map) :=
  store ← index (maps m) i;
  let '(r, store') := f store in
  Ret (r, set_maps m (<[Z.to_nat i := store']> (maps m))).

(** [func New(cap int) *Map]; [New 0] is also the zero value [var m Map]. *)
Definition New (cap : Z) : Map :=
  {| init := false; cap := cap; shards := 0; mus := []; maps := [] |}.

(** The loop [for m.shards < runtime.NumCPU()*16 { m.shards *= 2 }]. *)
Fixpoint grow_shards (fuel : nat) (shards : Z) : res Z :=
  if decide (shards < to_int (NumCPU * 16)) then
    match fuel with
    | O => Fail NoTermination
    | S fuel' => grow_shards fuel' (to_int (shards * 2))
    end
  else Ret shards.

(** After 64 doublings an [int] is 0, so a loop that has not ended by
    then never ends. *)
Definition grow_fuel : nat := 64.

(** [func (m *Map) initDo()].  The slice of stores is made and filled in
    one step. *)
Definition initDo (m : Map) : res Map :=
  if init m then Ret m
  else
    shards ← grow_shards grow_fuel 1;
    scap ← int_div (cap m) shards;
    mus ← make shards sync.zero;
    maps ← make shards (rhh.New scap);
    Ret {| init := true; cap := cap m; shards := shards; mus := mus; maps := maps |}.

(** [func (m *Map) choose(key string) int] *)
Definition choose (m : Map) (key : string) : Z :=
  to_int (Z.land (Sum64String key) (to_uint64 (shards m - 1))).

(** [func (m *Map) Clear()] *)
Fixpoint Clear_loop (fuel : nat) (i : Z) (m : Map) : res Map :=
  if decide (i < shards m) then
    match fuel with
    | O => Fail NoTermination
    | S fuel' =>
        m ← mus_do sync.Lock i m;
        scap ← int_div (cap m) (shards m);
        maps' ← assign (maps m) i (rhh.New scap);
        m ← Ret (set_maps m maps');
        m ← mus_do sync.Unlock i m;
        Clear_loop fuel' (to_int (i + 1)) m
    end
  else Ret m.

Definition Clear (m : Map) : res Map :=
  m ← initDo m;
  Clear_loop (Z.to_nat (shards m)) 0 m.

(** [func (m *Map) Set(key string, value interface{})] *)
Definition Set_ (key : string) (value : iface T) (m : Map)
  : res ((iface T * bool) * Map) :=
  m ← initDo m;
  let shard := choose m key in
  m ← mus_do sync.Lock shard m;
  '(r, m) ← maps_do (rhh.Set_ key value) shard m;
  m ← mus_do sync.Unlock shard m;
  Ret (r, m).

(** [func (m *Map) SetAccept(key, value, accept)].  [accept] is [None]
    for a nil function.  The deferred [Unlock] runs last. *)
Definition SetAccept (key : string) (value : iface T)
    (accept : option (iface T → bool → bool)) (m : Map)
  : res ((iface T * bool) * Map) :=
  m ← initDo m;
  let shard := choose m key in
  m ← mus_do sync.Lock shard m;
  '((prev, replaced), m) ← maps_do (rhh.Set_ key value) shard m;
  '(r, m) ←
    match accept with
    | Some accept =>
        if negb (accept prev replaced) then
          (* revert unaccepted change *)
          '(_, m) ←
            (if negb replaced then
               (* delete the newly set data *)
               maps_do (rhh.Delete key) shard m
             else
               (* reset updated data *)
               maps_do (rhh.Set_ key prev) shard m);
          Ret ((nil, false), m)
        else Ret ((prev, replaced), m)
    | None => Ret ((prev, replaced), m)
    end;
  m ← mus_do sync.Unlock shard m;
  Ret (r, m).

(** [func (m *Map) Get(key string)] *)
Definition Get (key : string) (m : Map) : res ((iface T * bool) * Map) :=
  m ← initDo m;
  let shard := choose m key in
  m ← mus_do sync.RLock shard m;
  store ← index (maps m) shard;
  let r := rhh.Get key store in
  m ← mus_do sync.RUnlock shard m;
  Ret (r, m).

(** [func (m *Map) Delete(key string)] *)
Definition Delete (key : string) (m : Map) : res ((iface T * bool) * Map) :=
  m ← initDo m;
  let shard := choose m key in
  m ← mus_do sync.Lock shard m;
  '(r, m) ← maps_do (rhh.Delete key) shard m;
  m ← mus_do sync.Unlock shard m;
  Ret (r, m).

(** [func (m *Map) DeleteAccept(key, accept)] *)
Definition DeleteAccept (key : string)
    (accept : option (iface T → bool → bool)) (m : Map)
  : res ((iface T * bool) * Map) :=
  m ← initDo m;
  let shard := choose m key in
  m ← mus_do sync.Lock shard m;
  '((prev, deleted), m) ← maps_do (rhh.Delete key) shard m;
  '(r, m) ←
    match accept with
    | Some accept =>
        if negb (accept prev deleted) then
          (* revert unaccepted change *)
          m ←
            (if deleted then
               (* reset updated data *)
               '(_, m) ← maps_do (rhh.Set_ key prev) shard m; Ret m
             else Ret m);
          Ret ((nil, false), m)
        else Ret ((prev, deleted), m)
    | None => Ret ((prev, deleted), m)
    end;
  m ← mus_do sync.Unlock shard m;
  Ret (r, m).

(** [func (m *Map) Len() int] *)
Fixpoint Len_loop (fuel : nat) (i : Z) (len : Z) (m : Map) : res (Z * Map) :=
  if decide (i < shards m) then
    match fuel with
    | O => Fail NoTermination
    | S fuel' =>
        m ← mus_do sync.Lock i m;
        store ← index (maps m) i;
        let len := to_int (len + rhh.Len store) in
        m ← mus_do sync.Unlock i m;
        Len_loop fuel' (to_int (i + 1)) len m
    end
  else Ret (len, m).

Definition Len (m : Map) : res (Z * Map) :=
  m ← initDo m;
  Len_loop (Z.to_nat (shards m)) 0 0 m.

(** [func (m *Map) Range(iter)].  [iter] is a closure: it takes and
    returns the state [St] of what it captured.  The closure handed to
    the store also holds the local [done]. *)
Definition Range_visit {St : Type} (iter : string → iface T → St → bool * St)
    (key : string) (value : iface T) (c : bool * St) : bool * (bool * St) :=
  let '(done, s) := c in
  let '(more, s) := iter key value s in
  if negb more then (false, (true, s)) else (true, (done, s)).

Fixpoint Range_loop {St : Type} (fuel : nat) (i : Z)
    (iter : string → iface T → St → bool * St) (done : bool) (s : St) (m : Map)
  : res (St * Map) :=
  if decide (i < shards m) then
    match fuel with
    | O => Fail NoTermination
    | S fuel' =>
        m ← mus_do sync.RLock i m;
        store ← index (maps m) i;
        let '(done, s) := rhh.Range (Range_visit iter) store (done, s) in
        m ← mus_do sync.RUnlock i m;
        if done then Ret (s, m)
        else Range_loop fuel' (to_int (i + 1)) iter done s m
    end
  else Ret (s, m).

Definition Range {St : Type} (iter : string → iface T → St → bool * St)
    (s : St) (m : Map) : res (St * Map) :=
  m ← initDo m;
  Range_loop (Z.to_nat (shards m)) 0 iter false s m.

(** Section 4.1 of the spec: the smallest power of two that is at least
    the available parallelism times 16. *)
Definition spec_shards : Z := 2 ^ Z.log2_up (NumCPU * 16).

(** ** The map as one logical key/value map *)

(** The entries of all shards together. *)
Definition contents (m : Map) : gmap string (iface T) :=
  ⋃ (rhh.data <$> maps m).

(** The state a call can find: nothing is locked, there are as many
    mutexes and stores as shards, and every entry sits in the shard its
    key is routed to.  Before the first call there is no store. *)
Record wf (m : Map) : Prop := {
  wf_shards : init m = true → grow_shards grow_fuel 1 = Ret (shards m);
  wf_mus : init m = true → mus m = replicate (Z.to_nat (shards m)) sync.zero;
  wf_maps : init m = true → length (maps m) = Z.to_nat (shards m);
  wf_route : ∀ i store key,
    maps m !! i = Some store → is_Some (rhh.data store !! key) →
    choose m key = Z.of_nat i;
  wf_fresh : init m = false → maps m = []
}.

(** A map whose [initDo] has run. *)
Definition ready (m : Map) : Prop := wf m ∧ init m = true.

(** A function on the logical map that reads and writes one key only. *)
Definition local_at {R : Type} (key : string)
    (g : gmap string (iface T) → R * gmap string (iface T)) : Prop :=
  (∀ σ1 σ2, σ1 !! key = σ2 !! key →
     (g σ1).1 = (g σ2).1 ∧ (g σ1).2 !! key = (g σ2).2 !! key) ∧
  (∀ σ k, k ≠ key → (g σ).2 !! k = σ !! k).

(** The same function on the entries of one store. *)
Definition store_do {R : Type}
    (g : gmap string (iface T) → R * gmap string (iface T)) (store : rhh.Map T)
  : R * rhh.Map T :=
  ((g (rhh.data store)).1,
   {| rhh.cap := rhh.cap store; rhh.data := (g (rhh.data store)).2 |}).

(** The single map of the spec: one finite map from keys to values. *)
Definition spec_lookup (key : string) (σ : gmap string (iface T)) : iface T * bool :=
  match σ !! key with
  | Some v => (v, true)
  | None => (nil, false)
  end.

Definition spec_Set (key : string) (value : iface T) (σ : gmap string (iface T))
  : (iface T * bool) * gmap string (iface T) :=
  (spec_lookup key σ, <[key := value]> σ).

Definition spec_Get (key : string) (σ : gmap string (iface T)) : iface T * bool :=
  spec_lookup key σ.

Definition spec_Delete (key : string) (σ : gmap string (iface T))
  : (iface T * bool) * gmap string (iface T) :=
  (spec_lookup key σ, delete key σ).

(** Section 4.3 of the spec: set tentatively; on a rejection delete the
    new key or put the previous value back, and answer [(nil, false)]. *)
Definition spec_SetAccept (key : string) (value : iface T)
    (accept : option (iface T → bool → bool)) (σ : gmap string (iface T))
  : (iface T * bool) * gmap string (iface T) :=
  let '(prev, had) := spec_lookup key σ in
  let σ1 := <[key := value]> σ in
  match accept with
  | Some accept =>
      if accept prev had then ((prev, had), σ1)
      else ((nil, false), if had then <[key := prev]> σ1 else delete key σ1)
  | None => ((prev, had), σ1)
  end.

(** Section 4.3 of the spec: delete tentatively; on a rejection put the
    deleted entry back, and answer [(nil, false)]. *)
Definition spec_DeleteAccept (key : string)
    (accept : option (iface T → bool → bool)) (σ : gmap string (iface T))
  : (iface T * bool) * gmap string (iface T) :=
  let '(prev, had) := spec_lookup key σ in
  let σ1 := delete key σ in
  match accept with
  | Some accept =>
      if accept prev had then ((prev, had), σ1)
      else ((nil, false), if had then <[key := prev]> σ1 else σ1)
  | None => ((prev, had), σ1)
  end.

Definition spec_Len (σ : gmap string (iface T)) : Z := Z.of_nat (size σ).

(** A map has no iteration order: a range visits the entries in some
    order, each once, up to the first [false]. *)
Definition spec_Range {St : Type} (iter : string → iface T → St → bool * St)
    (s : St) (σ : gmap string (iface T)) (s' : St) : Prop :=
  ∃ l, l ≡ₚ map_to_list σ ∧ s' = rhh.walk iter l s.

Definition spec_Clear (σ : gmap string (iface T)) : gmap string (iface T) := ∅.

(** ** Sequences of calls *)

(** [St] is the state of the visitors handed to [Range]. *)
Context {St : Type}.

Inductive call : Type :=
  | CSet (key : string) (value : iface T)
  | CGet (key : string)
  | CDelete (key : string)
  | CSetAccept (key : string) (value : iface T) (accept : option (iface T → bool → bool))
  | CDeleteAccept (key : string) (accept : option (iface T → bool → bool))
  | CLen
  | CRange (iter : string → iface T → St → bool * St) (s : St)
  | CClear.

Inductive reply : Type :=
  | RPair (r : iface T * bool)
  | RLen (n : Z)
  | RRange (s : St)
  | RUnit.

Definition do_call (c : call) (m : Map) : res (reply * Map) :=
  match c with
  | CSet key value => '(r, m) ← Set_ key value m; Ret (RPair r, m)
  | CGet key => '(r, m) ← Get key m; Ret (RPair r, m)
  | CDelete key => '(r, m) ← Delete key m; Ret (RPair r, m)
  | CSetAccept key value accept => '(r, m) ← SetAccept key value accept m; Ret (RPair r, m)
  | CDeleteAccept key accept => '(r, m) ← DeleteAccept key accept m; Ret (RPair r, m)
  | CLen => '(n, m) ← Len m; Ret (RLen n, m)
  | CRange iter s => '(s, m) ← Range iter s m; Ret (RRange s, m)
  | CClear => m ← Clear m; Ret (RUnit, m)
  end.

Fixpoint run (cs : list call) (m : Map) : res (list reply * Map) :=
  match cs with
  | [] => Ret ([], m)
  | c :: cs =>
      '(r, m) ← do_call c m;
      '(rs, m) ← run cs m;
      Ret (r :: rs, m)
  end.

(** What the single map of the spec allows as the reply to a call and
    as the map after it. *)
Definition spec_call (c : call) (σ : gmap string (iface T))
    (r : reply) (σ' : gmap string (iface T)) : Prop :=
  match c with
  | CSet key value => (RPair (spec_Set key value σ).1, (spec_Set key value σ).2) = (r, σ')
  | CGet key => (RPair (spec_Get key σ), σ) = (r, σ')
  | CDelete key => (RPair (spec_Delete key σ).1, (spec_Delete key σ).2) = (r, σ')
  | CSetAccept key value accept =>
      (RPair (spec_SetAccept key value accept σ).1,
       (spec_SetAccept key value accept σ).2) = (r, σ')
  | CDeleteAccept key accept =>
      (RPair (spec_DeleteAccept key accept σ).1,
       (spec_DeleteAccept key accept σ).2) = (r, σ')
  | CLen => (RLen (spec_Len σ), σ) = (r, σ')
  | CRange iter s => (∃ s', spec_Range iter s σ s' ∧ r = RRange s') ∧ σ' = σ
  | CClear => (RUnit, spec_Clear σ) = (r, σ')
  end.

Fixpoint spec_run (cs : list call) (σ : gmap string (iface T))
    (rs : list reply) (σ' : gmap string (iface T)) : Prop :=
  match cs, rs with
  | [], [] => σ' = σ
  | c :: cs, r :: rs => ∃ σ1, spec_call c σ r σ1 ∧ spec_run cs σ1 rs σ'
  | _, _ => False
  end.

(** The scenario of section 8 of the spec on the key ["hello"], for any
    two values [world] and [planet] and any two callbacks: a [Set], a
    [SetAccept], a [Get], a second [SetAccept] and a second [Get].  The
    replies of the last four calls are returned. *)
Definition hello_scenario (world planet : iface T)
    (cb cb2 : option (iface T → bool → bool))
  : res ((iface T * bool) * (iface T * bool) * (iface T * bool) * (iface T * bool)) :=
  '(_, m) ← Set_ "hello" world (New 0);
  '(r1, m) ← SetAccept "hello" planet cb m;
  '(g1, m) ← Get "hello" m;
  '(r2, m) ← SetAccept "hello" world cb2 m;
  '(g2, m) ← Get "hello" m;
  Ret (r1, g1, r2, g2).

(** A call that sets [key]. *)
Definition sets (key : string) (c : call) : bool :=
  match c with
  | CSet key' _ | CSetAccept key' _ _ => bool_decide (key' = key)
  | _ => false
  end.

(** A visitor with a counter of its invocations. *)
Definition counted (iter : string → iface T → St → bool * St)
    (key : string) (value : iface T) (c : St * nat) : bool * (St * nat) :=
  let '(more, s) := iter key value c.1 in (more, (s, S c.2)).

(** * Proofs *)

(** ** Integers *)

Lemma to_int_small z : - 2 ^ 63 ≤ z < 2 ^ 63 → to_int z = z.
Proof. intros Hz. unfold to_int. rewrite Z.mod_small; lia. Qed.

Lemma to_uint64_small z : 0 ≤ z < 2 ^ 64 → to_uint64 z = z.
Proof. intros Hz. unfold to_uint64. by rewrite Z.mod_small. Qed.

Lemma to_int_add_l a b : to_int (to_int a + b) = to_int (a + b).
Proof.
  unfold to_int.
  replace ((a + 2 ^ 63) mod 2 ^ 64 - 2 ^ 63 + b + 2 ^ 63)
    with ((a + 2 ^ 63) mod 2 ^ 64 + b) by lia.
  rewrite Zplus_mod_idemp_l. do 2 f_equal. lia.
Qed.

Lemma to_int_add_r a b : to_int (a + to_int b) = to_int (a + b).
Proof. by rewrite (Z.add_comm a), to_int_add_l, (Z.add_comm b). Qed.

(** ** The monad *)

Lemma bind_Ret {A B} (a : A) (f : A → res B) : (Ret a ≫= f) = f a.
Proof. reflexivity. Qed.

Lemma bind_Ret_inv {A B} (r : res A) (f : A → res B) b :
  r ≫= f = Ret b → ∃ a, r = Ret a ∧ f a = Ret b.
Proof. destruct r as [a|e]; [eauto | discriminate]. Qed.

(** ** Slices *)

Lemma index_Ret {A} (l : list A) i x :
  0 ≤ i → l !! Z.to_nat i = Some x → index l i = Ret x.
Proof. intros Hi Hx. unfold index. rewrite decide_True by done. by rewrite Hx. Qed.

Lemma index_Ret_inv {A} (l : list A) i x :
  index l i = Ret x → 0 ≤ i < Z.of_nat (length l) ∧ l !! Z.to_nat i = Some x.
Proof.
  unfold index. case_decide; [|done].
  destruct (l !! Z.to_nat i) as [y|] eqn:Hy; [|done].
  intros [= ->]. split; [|done]. apply lookup_lt_Some in Hy. lia.
Qed.

(** ** The number of shards *)

Hypothesis NumCPU_range : 1 ≤ NumCPU ≤ 2 ^ 58.

Lemma limit_no_wrap : to_int (NumCPU * 16) = NumCPU * 16.
Proof. apply to_int_small. lia. Qed.

Lemma log2_up_limit : 4 ≤ Z.log2_up (NumCPU * 16) ≤ 62.
Proof.
  split.
  - change 4 with (Z.log2_up 16). apply Z.log2_up_le_mono. lia.
  - change 62 with (Z.log2_up (2 ^ 62)). apply Z.log2_up_le_mono. lia.
Qed.

Lemma spec_shards_bounds : 16 ≤ spec_shards ≤ 2 ^ 62.
Proof.
  pose proof log2_up_limit as [Hlo Hhi]. unfold spec_shards. split.
  - assert (2 ^ 4 ≤ 2 ^ Z.log2_up (NumCPU * 16)) by (apply Z.pow_le_mono_r; lia).
    lia.
  - apply Z.pow_le_mono_r; lia.
Qed.

Lemma spec_shards_ge : NumCPU * 16 ≤ spec_shards.
Proof. unfold spec_shards. apply Z.log2_up_spec. lia. Qed.

Lemma below_spec_shards j : 0 ≤ j < Z.log2_up (NumCPU * 16) → 2 ^ j < NumCPU * 16.
Proof.
  intros Hj. pose proof (Z.log2_up_spec (NumCPU * 16) ltac:(lia)) as [Hlt _].
  eapply Z.le_lt_trans; [|exact Hlt].
  apply Z.pow_le_mono_r; lia.
Qed.

Lemma grow_shards_from j fuel :
  0 ≤ j ≤ Z.log2_up (NumCPU * 16) →
  (Z.to_nat (Z.log2_up (NumCPU * 16) - j) ≤ fuel)%nat →
  grow_shards fuel (2 ^ j) = Ret spec_shards.
Proof.
  revert j. induction fuel as [|fuel IH]; intros j Hj Hfuel.
  - assert (j = Z.log2_up (NumCPU * 16)) as -> by lia.
    simpl. rewrite limit_no_wrap, decide_False; [done|].
    pose proof spec_shards_ge. unfold spec_shards in *. lia.
  - simpl. rewrite limit_no_wrap.
    destruct (decide (j = Z.log2_up (NumCPU * 16))) as [->|Hne].
    + rewrite decide_False; [done|].
      pose proof spec_shards_ge. unfold spec_shards in *. lia.
    + rewrite decide_True by (apply below_spec_shards; lia).
      pose proof log2_up_limit.
      assert (2 ^ j * 2 = 2 ^ (j + 1)) as -> by (rewrite Z.pow_add_r; lia).
      assert (2 ^ (j + 1) ≤ 2 ^ 62) by (apply Z.pow_le_mono_r; lia).
      assert (0 < 2 ^ (j + 1)) by (apply Z.pow_pos_nonneg; lia).
      rewrite to_int_small by lia.
      apply IH; lia.
Qed.

Lemma grow_shards_Ret : grow_shards grow_fuel 1 = Ret spec_shards.
Proof.
  pose proof log2_up_limit.
  apply (grow_shards_from 0); unfold grow_fuel; lia.
Qed.

(** ** The router *)

Lemma choose_land m key :
  shards m = spec_shards →
  choose m key = Z.land (Sum64String key) (shards m - 1).
Proof.
  intros Hs. pose proof spec_shards_bounds. unfold choose.
  rewrite to_uint64_small by lia.
  apply to_int_small.
  assert (0 ≤ Z.land (Sum64String key) (shards m - 1)) as H0
    by (apply Z.land_nonneg; lia).
  assert (Z.land (Sum64String key) (shards m - 1) = Sum64String key `mod` shards m) as E.
  { rewrite Hs. unfold spec_shards. rewrite <- Z.land_ones by (pose proof log2_up_limit; lia).
    by rewrite Z.ones_equiv, Z.sub_1_r. }
  pose proof (Z.mod_pos_bound (Sum64String key) (shards m) ltac:(lia)). lia.
Qed.

Lemma choose_mod m key :
  shards m = spec_shards →
  choose m key = Sum64String key `mod` shards m.
Proof.
  intros Hs. rewrite choose_land by done. rewrite Hs. unfold spec_shards.
  rewrite <- Z.land_ones by (pose proof log2_up_limit; lia).
  by rewrite Z.ones_equiv, Z.sub_1_r.
Qed.

Lemma choose_range m key :
  shards m = spec_shards → 0 ≤ choose m key < shards m.
Proof.
  intros Hs. rewrite choose_mod by done. pose proof spec_shards_bounds.
  apply Z.mod_pos_bound. lia.
Qed.

(** ** Maps whose [initDo] has run *)

Lemma ready_shards m : ready m → shards m = spec_shards.
Proof.
  intros [Hwf Hi]. pose proof (wf_shards _ Hwf Hi) as H.
  rewrite grow_shards_Ret in H. by injection H.
Qed.

Lemma ready_mu m i :
  ready m → 0 ≤ i < shards m → mus m !! Z.to_nat i = Some sync.zero.
Proof.
  intros [Hwf Hi] Hr. rewrite (wf_mus _ Hwf Hi). apply lookup_replicate_2. lia.
Qed.

Lemma ready_store m i :
  ready m → 0 ≤ i < shards m → ∃ store, maps m !! Z.to_nat i = Some store.
Proof.
  intros [Hwf Hi] Hr. apply lookup_lt_is_Some. rewrite (wf_maps _ Hwf Hi). lia.
Qed.

Lemma initDo_ready m : ready m → initDo m = Ret m.
Proof. intros [_ Hi]. unfold initDo. by rewrite Hi. Qed.

Lemma initDo_fresh m :
  init m = false →
  initDo m = Ret {| init := true; cap := cap m; shards := spec_shards;
                    mus := replicate (Z.to_nat spec_shards) sync.zero;
                    maps := replicate (Z.to_nat spec_shards)
                              (rhh.New (to_int (cap m ÷ spec_shards))) |}.
Proof.
  intros Hi. pose proof spec_shards_bounds. unfold initDo. rewrite Hi, grow_shards_Ret.
  simpl. unfold int_div, make. rewrite !decide_False by lia. simpl.
  by rewrite decide_False by lia.
Qed.

Lemma contents_fresh m : wf m → init m = false → contents m = ∅.
Proof. intros Hwf Hi. unfold contents. by rewrite (wf_fresh _ Hwf Hi). Qed.

Lemma union_list_empty {A} (n : nat) :
  ⋃ replicate n (∅ : gmap string A) = ∅.
Proof. induction n as [|n IH]; simpl; [done|]. by rewrite IH, (left_id_L ∅ (∪)). Qed.

Lemma contents_replicate m n c :
  maps m = replicate n (rhh.New c) → contents m = ∅.
Proof.
  intros E. unfold contents. rewrite E, fmap_replicate. apply union_list_empty.
Qed.

Lemma wf_replicate m c :
  init m = true → shards m = spec_shards →
  mus m = replicate (Z.to_nat (shards m)) sync.zero →
  maps m = replicate (Z.to_nat (shards m)) (rhh.New c) →
  wf m.
Proof.
  intros Hi Hs Hmus Hmaps. split; intros; try congruence.
  - by rewrite grow_shards_Ret, Hs.
  - by rewrite Hmaps, length_replicate.
  - rewrite Hmaps in *.
    match goal with H : replicate _ _ !! _ = Some _ |- _ =>
      apply lookup_replicate in H as [-> _] end.
    match goal with H : is_Some _ |- _ => simpl in H; rewrite lookup_empty in H;
      by destruct H end.
Qed.

Lemma initDo_wf m :
  wf m →
  ∃ m0, initDo m = Ret m0 ∧ ready m0 ∧ contents m0 = contents m ∧
        cap m0 = cap m ∧ (init m = true → m0 = m).
Proof.
  intros Hwf. destruct (init m) eqn:Hi.
  - exists m. unfold ready. split_and!; try done. by apply initDo_ready.
  - eexists. split; [by apply initDo_fresh|].
    unfold ready. split_and!; try done.
    + by eapply wf_replicate.
    + rewrite (contents_fresh m) by done. by eapply contents_replicate.
Qed.

(** ** The entries of a map, shard by shard *)

Lemma datas_disjoint m :
  wf m → map_disjoint_list (M := gmap string) (rhh.data <$> maps m).
Proof.
  intros Hwf j1 j2 d1 d2 Hne H1 H2.
  rewrite list_lookup_fmap in H1, H2.
  destruct (maps m !! j1) as [s1|] eqn:E1; [|done].
  destruct (maps m !! j2) as [s2|] eqn:E2; [|done].
  injection H1 as <-. injection H2 as <-.
  apply map_disjoint_spec. intros k x y Hx Hy.
  pose proof (wf_route _ Hwf j1 s1 k E1 (mk_is_Some _ _ Hx)).
  pose proof (wf_route _ Hwf j2 s2 k E2 (mk_is_Some _ _ Hy)).
  lia.
Qed.

Lemma contents_lookup m key store :
  wf m → 0 ≤ choose m key → maps m !! Z.to_nat (choose m key) = Some store →
  contents m !! key = rhh.data store !! key.
Proof.
  intros Hwf H0 Hs. unfold contents.
  destruct (rhh.data store !! key) as [x|] eqn:E.
  - apply lookup_union_list_Some_2 with (rhh.data store); [|by apply datas_disjoint|done].
    apply list_elem_of_fmap_2. by eapply list_elem_of_lookup_2.
  - apply lookup_union_list_None_2, Forall_lookup. intros j d Hd.
    rewrite list_lookup_fmap in Hd.
    destruct (maps m !! j) as [s'|] eqn:Ej; [|done]. injection Hd as <-.
    destruct (rhh.data s' !! key) as [y|] eqn:Ey; [|done].
    pose proof (wf_route _ Hwf j s' key Ej (mk_is_Some _ _ Ey)) as Hj.
    rewrite Hj, Nat2Z.id in Hs. congruence.
Qed.

Lemma contents_lookup_None m key :
  wf m → (∀ store, store ∈ maps m → rhh.data store !! key = None) →
  contents m !! key = None.
Proof.
  intros _ H. apply lookup_union_list_None_2, Forall_forall.
  intros d [s [-> Hs]]%list_elem_of_fmap. by apply H.
Qed.

(** ** One store changes *)

Lemma ready_update m n store store' :
  ready m → maps m !! n = Some store →
  (∀ k, is_Some (rhh.data store' !! k) →
        is_Some (rhh.data store !! k) ∨ choose m k = Z.of_nat n) →
  ready (set_maps m (<[n := store']> (maps m))).
Proof.
  intros [Hwf Hi] Hs Hk. split; [|done].
  split.
  - intros _. exact (wf_shards _ Hwf Hi).
  - intros _. exact (wf_mus _ Hwf Hi).
  - intros _. change (length (<[n := store']> (maps m)) = Z.to_nat (shards m)).
    rewrite length_insert. exact (wf_maps _ Hwf Hi).
  - intros j s key Hl Hsome.
    change (<[n := store']> (maps m) !! j = Some s) in Hl.
    change (choose m key = Z.of_nat j).
    destruct (decide (n = j)) as [<-|Hne].
    + rewrite list_lookup_insert_eq in Hl by (by eapply lookup_lt_Some).
      injection Hl as <-. destruct (Hk _ Hsome) as [?|?]; [|done].
      by eapply (wf_route _ Hwf).
    + rewrite list_lookup_insert_ne in Hl by done. by eapply (wf_route _ Hwf).
  - intros Hf. change (init m = false) in Hf. congruence.
Qed.

Lemma local_ready_update {R} key (g : _ → R * _) m store :
  ready m → local_at key g →
  maps m !! Z.to_nat (choose m key) = Some store →
  ready (set_maps m (<[Z.to_nat (choose m key) := (store_do g store).2]> (maps m))).
Proof.
  intros Hr [_ Hg] Hs. eapply ready_update; [done..|].
  intros k Hk. simpl in Hk.
  destruct (decide (k = key)) as [->|Hne].
  - right. pose proof (choose_range m key (ready_shards _ Hr)). lia.
  - left. by rewrite Hg in Hk.
Qed.

Lemma local_contents_update {R} key (g : _ → R * _) m store :
  ready m → local_at key g →
  maps m !! Z.to_nat (choose m key) = Some store →
  contents (set_maps m (<[Z.to_nat (choose m key) := (store_do g store).2]> (maps m)))
  = (g (contents m)).2.
Proof.
  intros Hr Hg Hs.
  pose proof (local_ready_update key g m store Hr Hg Hs) as [Hwf' _].
  destruct Hr as [Hwf Hi]. destruct Hg as [Hkey Hoth].
  set (m' := set_maps m _) in *.
  assert (∀ k, choose m' k = choose m k) as Hch by done.
  assert (∀ k, 0 ≤ choose m k < shards m) as Hrg
    by (intros k; apply choose_range, ready_shards; by split).
  apply map_eq. intros k.
  destruct (ready_store m (choose m k) (conj Hwf Hi) (Hrg k)) as [sk Hsk].
  destruct (decide (choose m k = choose m key)) as [Heq|Hne].
  - assert (sk = store) as -> by (rewrite Heq in Hsk; congruence).
    rewrite (contents_lookup m' k (store_do g store).2); [|done|rewrite Hch; apply Hrg|].
    2:{ rewrite Hch, Heq. subst m'. simpl.
        apply list_lookup_insert_eq. by eapply lookup_lt_Some. }
    simpl. destruct (decide (k = key)) as [->|Hk].
    + apply Hkey. symmetry. apply contents_lookup; [done|apply Hrg|done].
    + rewrite !Hoth by done. symmetry. apply contents_lookup; [done|apply Hrg|done].
  - assert (k ≠ key) as Hk by congruence.
    rewrite Hoth by done.
    rewrite (contents_lookup m' k sk); [|done|rewrite Hch; apply Hrg|].
    2:{ rewrite Hch. subst m'. simpl. rewrite list_lookup_insert_ne; [done|].
        pose proof (Hrg k). pose proof (Hrg key). lia. }
    symmetry. apply contents_lookup; [done|apply Hrg|done].
Qed.

Lemma local_result {R} key (g : _ → R * _) m store :
  ready m → local_at key g →
  maps m !! Z.to_nat (choose m key) = Some store →
  (store_do g store).1 = (g (contents m)).1.
Proof.
  intros Hr [Hkey _] Hs. simpl. apply Hkey. symmetry.
  apply contents_lookup; [apply Hr| |done].
  apply choose_range, ready_shards, Hr.
Qed.

(** ** The store of the spec and the functions on its entries *)

Lemma rhh_Set_store_do key value (store : rhh.Map T) :
  rhh.Set_ key value store = store_do (spec_Set key value) store.
Proof.
  unfold rhh.Set_, store_do, spec_Set, spec_lookup. simpl.
  by destruct (rhh.data store !! key).
Qed.

Lemma rhh_Delete_store_do key (store : rhh.Map T) :
  rhh.Delete key store = store_do (spec_Delete key) store.
Proof.
  unfold rhh.Delete, store_do, spec_Delete, spec_lookup. simpl.
  destruct (rhh.data store !! key) eqn:E; [done|].
  rewrite delete_id by done. by destruct store.
Qed.

Lemma rhh_Get_spec key (store : rhh.Map T) :
  rhh.Get key store = spec_Get key (rhh.data store).
Proof. reflexivity. Qed.

(** ** Taking and releasing the mutex of a shard *)

Lemma mus_do_Ret f i m mu mu' :
  0 ≤ i → mus m !! Z.to_nat i = Some mu → f mu = Ret mu' →
  mus_do f i m = Ret (set_mus m (<[Z.to_nat i := mu']> (mus m))).
Proof.
  intros Hi Hmu Hf. unfold mus_do. rewrite (index_Ret _ _ _ Hi Hmu). simpl.
  by rewrite Hf.
Qed.

Lemma maps_do_Ret {R} (f : rhh.Map T → R * rhh.Map T) i m store :
  0 ≤ i → maps m !! Z.to_nat i = Some store →
  maps_do f i m = Ret ((f store).1, set_maps m (<[Z.to_nat i := (f store).2]> (maps m))).
Proof.
  intros Hi Hs. unfold maps_do. rewrite (index_Ret _ _ _ Hi Hs). simpl.
  by destruct (f store).
Qed.

Lemma released m n mu l :
  mus m !! n = Some sync.zero →
  set_mus (set_maps (set_mus m (<[n := mu]> (mus m))) l)
          (<[n := sync.zero]> (<[n := mu]> (mus m))) = set_maps m l.
Proof.
  intros Hn. unfold set_mus, set_maps. simpl.
  rewrite list_insert_insert_eq, list_insert_id by done. done.
Qed.

Lemma mus_do_released f m i mu l :
  0 ≤ i → mus m !! Z.to_nat i = Some sync.zero → f mu = Ret sync.zero →
  mus_do f i (set_maps (set_mus m (<[Z.to_nat i := mu]> (mus m))) l)
  = Ret (set_maps m l).
Proof.
  intros Hi Hmu Hf. erewrite mus_do_Ret; [|done| |done].
  - simpl. by rewrite released.
  - simpl. apply list_lookup_insert_eq. by eapply lookup_lt_Some.
Qed.

Lemma set_maps_id m : set_maps m (maps m) = m.
Proof. by destruct m. Qed.

Lemma set_maps_set_maps m l l' : set_maps (set_maps m l) l' = set_maps m l'.
Proof. done. Qed.

Lemma mus_do_released_same f m i mu :
  0 ≤ i → mus m !! Z.to_nat i = Some sync.zero → f mu = Ret sync.zero →
  mus_do f i (set_mus m (<[Z.to_nat i := mu]> (mus m))) = Ret m.
Proof.
  intros Hi Hmu Hf.
  change (set_mus m (<[Z.to_nat i := mu]> (mus m)))
    with (set_maps (set_mus m (<[Z.to_nat i := mu]> (mus m))) (maps m)).
  erewrite mus_do_released by done. by rewrite set_maps_id.
Qed.

(** ** The calls on one key, on a map whose [initDo] has run *)

Lemma Set_ready key value m store :
  ready m → maps m !! Z.to_nat (choose m key) = Some store →
  Set_ key value m =
    Ret ((store_do (spec_Set key value) store).1,
         set_maps m (<[Z.to_nat (choose m key) :=
                         (store_do (spec_Set key value) store).2]> (maps m))).
Proof.
  intros Hr Hs. pose proof (choose_range m key (ready_shards _ Hr)) as Hc.
  pose proof (ready_mu m _ Hr Hc) as Hmu.
  unfold Set_. rewrite (initDo_ready _ Hr), bind_Ret.
  erewrite mus_do_Ret; [|lia|done|reflexivity]. rewrite bind_Ret.
  erewrite maps_do_Ret; [|lia|done]. rewrite bind_Ret.
  erewrite mus_do_released; [|lia|done|reflexivity].
  by rewrite bind_Ret, rhh_Set_store_do.
Qed.

Lemma Delete_ready key m store :
  ready m → maps m !! Z.to_nat (choose m key) = Some store →
  Delete key m =
    Ret ((store_do (spec_Delete key) store).1,
         set_maps m (<[Z.to_nat (choose m key) :=
                         (store_do (spec_Delete key) store).2]> (maps m))).
Proof.
  intros Hr Hs. pose proof (choose_range m key (ready_shards _ Hr)) as Hc.
  pose proof (ready_mu m _ Hr Hc) as Hmu.
  unfold Delete. rewrite (initDo_ready _ Hr), bind_Ret.
  erewrite mus_do_Ret; [|lia|done|reflexivity]. rewrite bind_Ret.
  erewrite maps_do_Ret; [|lia|done]. rewrite bind_Ret.
  erewrite mus_do_released; [|lia|done|reflexivity].
  by rewrite bind_Ret, rhh_Delete_store_do.
Qed.

Lemma Get_ready key m store :
  ready m → maps m !! Z.to_nat (choose m key) = Some store →
  Get key m = Ret (spec_Get key (rhh.data store), m).
Proof.
  intros Hr Hs. pose proof (choose_range m key (ready_shards _ Hr)) as Hc.
  pose proof (ready_mu m _ Hr Hc) as Hmu.
  unfold Get. rewrite (initDo_ready _ Hr), bind_Ret.
  erewrite mus_do_Ret; [|lia|done|reflexivity]. rewrite bind_Ret.
  erewrite index_Ret; [|lia|done]. rewrite bind_Ret.
  erewrite mus_do_released_same; [|lia|done|reflexivity].
  by rewrite bind_Ret.
Qed.

Lemma SetAccept_ready key value accept m store :
  ready m → maps m !! Z.to_nat (choose m key) = Some store →
  SetAccept key value accept m =
    Ret ((store_do (spec_SetAccept key value accept) store).1,
         set_maps m (<[Z.to_nat (choose m key) :=
                         (store_do (spec_SetAccept key value accept) store).2]> (maps m))).
Proof.
  intros Hr Hs. pose proof (choose_range m key (ready_shards _ Hr)) as Hc.
  pose proof (ready_mu m _ Hr Hc) as Hmu.
  assert (Z.to_nat (choose m key) < length (maps m))%nat as Hlen
    by (by eapply lookup_lt_Some).
  unfold SetAccept. rewrite (initDo_ready _ Hr), bind_Ret.
  erewrite mus_do_Ret; [|lia|done|reflexivity]. rewrite bind_Ret.
  erewrite maps_do_Ret; [|lia|done]. rewrite bind_Ret.
  rewrite rhh_Set_store_do.
  unfold store_do, spec_SetAccept, spec_Set, spec_lookup.
  destruct (rhh.data store !! key) as [prev|] eqn:E; simpl.
  - destruct accept as [accept|]; [destruct (accept prev true) eqn:Ea|]; simpl.
    + erewrite mus_do_released; [|lia|done|reflexivity]. by rewrite bind_Ret.
    + erewrite maps_do_Ret; [|lia|by apply list_lookup_insert_eq]. rewrite bind_Ret.
      rewrite rhh_Set_store_do. simpl.
      rewrite list_insert_insert_eq, set_maps_set_maps.
      erewrite mus_do_released; [|lia|done|reflexivity]. by rewrite bind_Ret.
    + erewrite mus_do_released; [|lia|done|reflexivity]. by rewrite bind_Ret.
  - destruct accept as [accept|]; [destruct (accept nil false) eqn:Ea|]; simpl.
    + erewrite mus_do_released; [|lia|done|reflexivity]. by rewrite bind_Ret.
    + erewrite maps_do_Ret; [|lia|by apply list_lookup_insert_eq]. rewrite bind_Ret.
      rewrite rhh_Delete_store_do. simpl.
      rewrite list_insert_insert_eq, set_maps_set_maps.
      erewrite mus_do_released; [|lia|done|reflexivity]. by rewrite bind_Ret.
    + erewrite mus_do_released; [|lia|done|reflexivity]. by rewrite bind_Ret.
Qed.

Lemma DeleteAccept_ready key accept m store :
  ready m → maps m !! Z.to_nat (choose m key) = Some store →
  DeleteAccept key accept m =
    Ret ((store_do (spec_DeleteAccept key accept) store).1,
         set_maps m (<[Z.to_nat (choose m key) :=
                         (store_do (spec_DeleteAccept key accept) store).2]> (maps m))).
Proof.
  intros Hr Hs. pose proof (choose_range m key (ready_shards _ Hr)) as Hc.
  pose proof (ready_mu m _ Hr Hc) as Hmu.
  assert (Z.to_nat (choose m key) < length (maps m))%nat as Hlen
    by (by eapply lookup_lt_Some).
  unfold DeleteAccept. rewrite (initDo_ready _ Hr), bind_Ret.
  erewrite mus_do_Ret; [|lia|done|reflexivity]. rewrite bind_Ret.
  erewrite maps_do_Ret; [|lia|done]. rewrite bind_Ret.
  rewrite rhh_Delete_store_do.
  unfold store_do, spec_DeleteAccept, spec_Delete, spec_lookup.
  destruct (rhh.data store !! key) as [prev|] eqn:E; simpl.
  - destruct accept as [accept|]; [destruct (accept prev true) eqn:Ea|]; simpl.
    + erewrite mus_do_released; [|lia|done|reflexivity]. by rewrite bind_Ret.
    + erewrite maps_do_Ret; [|lia|by apply list_lookup_insert_eq]. rewrite bind_Ret.
      rewrite rhh_Set_store_do. simpl.
      rewrite list_insert_insert_eq, set_maps_set_maps.
      erewrite mus_do_released; [|lia|done|reflexivity]. by rewrite bind_Ret.
    + erewrite mus_do_released; [|lia|done|reflexivity]. by rewrite bind_Ret.
  - destruct accept as [accept|]; [destruct (accept nil false) eqn:Ea|]; simpl.
    + erewrite mus_do_released; [|lia|done|reflexivity]. by rewrite bind_Ret.
    + erewrite mus_do_released; [|lia|done|reflexivity]. by rewrite bind_Ret.
    + erewrite mus_do_released; [|lia|done|reflexivity]. by rewrite bind_Ret.
Qed.

(** ** The calls on one key read and write that key only *)

Lemma spec_Set_local key value : local_at key (spec_Set key value).
Proof.
  unfold spec_Set, spec_lookup. split; simpl.
  - intros σ1 σ2 ->. by rewrite !lookup_insert_eq.
  - intros σ k Hk. by rewrite lookup_insert_ne.
Qed.

Lemma spec_Delete_local key : local_at key (spec_Delete key).
Proof.
  unfold spec_Delete, spec_lookup. split; simpl.
  - intros σ1 σ2 ->. by rewrite !lookup_delete_eq.
  - intros σ k Hk. by rewrite lookup_delete_ne.
Qed.

Lemma spec_SetAccept_local key value accept :
  local_at key (spec_SetAccept key value accept).
Proof.
  unfold spec_SetAccept, spec_lookup. split.
  - intros σ1 σ2 ->. destruct (σ2 !! key) as [prev|];
      (destruct accept as [accept|]; [destruct (accept _ _)|]); simpl;
      by rewrite ?lookup_insert_eq, ?lookup_delete_eq.
  - intros σ k Hk. destruct (σ !! key) as [prev|];
      (destruct accept as [accept|]; [destruct (accept _ _)|]); simpl;
      by rewrite ?lookup_insert_ne, ?lookup_delete_ne, ?lookup_insert_ne.
Qed.

Lemma spec_DeleteAccept_local key accept :
  local_at key (spec_DeleteAccept key accept).
Proof.
  unfold spec_DeleteAccept, spec_lookup. split.
  - intros σ1 σ2 ->. destruct (σ2 !! key) as [prev|];
      (destruct accept as [accept|]; [destruct (accept _ _)|]); simpl;
      by rewrite ?lookup_insert_eq, ?lookup_delete_eq.
  - intros σ k Hk. destruct (σ !! key) as [prev|];
      (destruct accept as [accept|]; [destruct (accept _ _)|]); simpl;
      by rewrite ?lookup_insert_ne, ?lookup_delete_ne.
Qed.

(** A rejected change leaves the single map of the spec as it was. *)
Lemma spec_SetAccept_rejected key value accept σ :
  accept (spec_lookup key σ).1 (spec_lookup key σ).2 = false →
  spec_SetAccept key value (Some accept) σ = ((nil, false), σ).
Proof.
  unfold spec_SetAccept, spec_lookup.
  destruct (σ !! key) as [prev|] eqn:E; simpl; intros ->; f_equal.
  - by rewrite insert_insert_eq, insert_id.
  - by rewrite delete_insert_eq, delete_id.
Qed.

Lemma spec_DeleteAccept_rejected key accept σ :
  accept (spec_lookup key σ).1 (spec_lookup key σ).2 = false →
  spec_DeleteAccept key (Some accept) σ = ((nil, false), σ).
Proof.
  unfold spec_DeleteAccept, spec_lookup.
  destruct (σ !! key) as [prev|] eqn:E; simpl; intros ->; f_equal.
  - by rewrite insert_delete_eq, insert_id.
  - by rewrite delete_id.
Qed.

(** ** From a call on the routed store to a call on the logical map *)

Lemma keyed_refines {R} key (g : _ → R * _) (op : Map → res (R * Map)) m :
  local_at key g →
  (∀ m store, ready m → maps m !! Z.to_nat (choose m key) = Some store →
     op m = Ret ((store_do g store).1,
                 set_maps m (<[Z.to_nat (choose m key) := (store_do g store).2]> (maps m)))) →
  (∀ m m0, initDo m = Ret m0 → ready m0 → op m = op m0) →
  wf m →
  ∃ m', op m = Ret ((g (contents m)).1, m') ∧ ready m' ∧
        contents m' = (g (contents m)).2 ∧ cap m' = cap m.
Proof.
  intros Hg Hop Hinit Hwf.
  destruct (initDo_wf m Hwf) as (m0 & Hm0 & Hr & Hc & Hcap & _).
  rewrite (Hinit _ _ Hm0 Hr), <- Hc, <- Hcap.
  pose proof (choose_range m0 key (ready_shards _ Hr)) as Hrg.
  destruct (ready_store m0 _ Hr Hrg) as [store Hs].
  rewrite (Hop _ _ Hr Hs). eexists. split_and!.
  - f_equal. f_equal. by apply (local_result key).
  - by apply local_ready_update.
  - by apply local_contents_update.
  - done.
Qed.

Lemma Set_refines key value m :
  wf m →
  ∃ m', Set_ key value m = Ret ((spec_Set key value (contents m)).1, m') ∧ ready m' ∧
        contents m' = (spec_Set key value (contents m)).2 ∧ cap m' = cap m.
Proof.
  apply (keyed_refines key (spec_Set key value) (Set_ key value)).
  - apply spec_Set_local.
  - intros. by apply Set_ready.
  - intros m1 m0 H Hr. unfold Set_. by rewrite H, (initDo_ready _ Hr).
Qed.

Lemma Delete_refines key m :
  wf m →
  ∃ m', Delete key m = Ret ((spec_Delete key (contents m)).1, m') ∧ ready m' ∧
        contents m' = (spec_Delete key (contents m)).2 ∧ cap m' = cap m.
Proof.
  apply (keyed_refines key (spec_Delete key) (Delete key)).
  - apply spec_Delete_local.
  - intros. by apply Delete_ready.
  - intros m1 m0 H Hr. unfold Delete. by rewrite H, (initDo_ready _ Hr).
Qed.

Lemma SetAccept_refines key value accept m :
  wf m →
  ∃ m', SetAccept key value accept m
          = Ret ((spec_SetAccept key value accept (contents m)).1, m') ∧ ready m' ∧
        contents m' = (spec_SetAccept key value accept (contents m)).2 ∧ cap m' = cap m.
Proof.
  apply (keyed_refines key (spec_SetAccept key value accept) (SetAccept key value accept)).
  - apply spec_SetAccept_local.
  - intros. by apply SetAccept_ready.
  - intros m1 m0 H Hr. unfold SetAccept. by rewrite H, (initDo_ready _ Hr).
Qed.

Lemma DeleteAccept_refines key accept m :
  wf m →
  ∃ m', DeleteAccept key accept m
          = Ret ((spec_DeleteAccept key accept (contents m)).1, m') ∧ ready m' ∧
        contents m' = (spec_DeleteAccept key accept (contents m)).2 ∧ cap m' = cap m.
Proof.
  apply (keyed_refines key (spec_DeleteAccept key accept) (DeleteAccept key accept)).
  - apply spec_DeleteAccept_local.
  - intros. by apply DeleteAccept_ready.
  - intros m1 m0 H Hr. unfold DeleteAccept. by rewrite H, (initDo_ready _ Hr).
Qed.

Lemma Get_refines key m :
  wf m →
  ∃ m', Get key m = Ret (spec_Get key (contents m), m') ∧ ready m' ∧
        contents m' = contents m ∧ cap m' = cap m ∧ initDo m = Ret m'.
Proof.
  intros Hwf. destruct (initDo_wf m Hwf) as (m0 & Hm0 & Hr & Hc & Hcap & _).
  exists m0. split_and!; try done.
  assert (Get key m = Get key m0) as ->
    by (unfold Get; by rewrite Hm0, (initDo_ready _ Hr)).
  pose proof (choose_range m0 key (ready_shards _ Hr)) as Hrg.
  destruct (ready_store m0 _ Hr Hrg) as [store Hs].
  rewrite (Get_ready _ _ _ Hr Hs). unfold spec_Get, spec_lookup.
  rewrite <- Hc, (contents_lookup m0 key store); [done|apply Hr|lia|done].
Qed.

(** ** Counting and listing the entries of disjoint stores *)

Lemma size_union_list {A} (l : list (gmap string A)) :
  map_disjoint_list l → size (⋃ l) = sum_list (size <$> l).
Proof.
  induction l as [|d l IH]; simpl; intros Hd.
  - apply map_size_empty.
  - apply map_disjoint_list_cons in Hd as [Hd1 Hd2].
    rewrite map_size_disj_union by (by apply map_disjoint_union_list_r).
    by rewrite IH.
Qed.

Lemma map_to_list_disj_union {A} (d1 d2 : gmap string A) :
  d1 ##ₘ d2 → map_to_list (d1 ∪ d2) ≡ₚ map_to_list d1 ++ map_to_list d2.
Proof.
  intros Hd. apply NoDup_Permutation.
  - apply NoDup_map_to_list.
  - apply NoDup_app. split_and!; try apply NoDup_map_to_list.
    intros [k x] H1 H2. apply elem_of_map_to_list in H1, H2.
    by eapply (map_disjoint_spec d1 d2).
  - intros [k x]. rewrite elem_of_app, !elem_of_map_to_list.
    by apply lookup_union_Some.
Qed.

Lemma map_to_list_union_list {A} (l : list (gmap string A)) :
  map_disjoint_list l → map_to_list (⋃ l) ≡ₚ concat (map_to_list <$> l).
Proof.
  induction l as [|d l IH]; simpl; intros Hd.
  - by rewrite map_to_list_empty.
  - apply map_disjoint_list_cons in Hd as [Hd1 Hd2].
    rewrite map_to_list_disj_union by (by apply map_disjoint_union_list_r).
    by rewrite IH.
Qed.

(** ** The loop of [Len] *)

Lemma to_int_idem z : to_int (to_int z) = to_int z.
Proof. pose proof (to_int_add_l z 0) as H. by rewrite !Z.add_0_r in H. Qed.

Lemma Len_fold (l : list (rhh.Map T)) acc :
  to_int acc = acc →
  foldl (λ acc store, to_int (acc + rhh.Len store)) acc l
  = to_int (acc + Z.of_nat (sum_list (size <$> (rhh.data <$> l)))).
Proof.
  revert acc. induction l as [|s l IH]; simpl; intros acc Hacc.
  - by rewrite Z.add_0_r.
  - rewrite IH by apply to_int_idem. unfold rhh.Len.
    rewrite to_int_add_r, to_int_add_l. f_equal. by rewrite Nat2Z.inj_add, Z.add_assoc.
Qed.

Lemma Len_loop_Ret fuel i len m :
  ready m → 0 ≤ i ≤ shards m → (Z.to_nat (shards m - i) ≤ fuel)%nat →
  Len_loop fuel i len m
  = Ret (foldl (λ acc store, to_int (acc + rhh.Len store)) len
           (drop (Z.to_nat i) (maps m)), m).
Proof.
  intros Hr. pose proof (ready_shards _ Hr) as Hsh. pose proof spec_shards_bounds.
  revert i len. induction fuel as [|fuel IH]; intros i len Hi Hfuel.
  - assert (i = shards m) as -> by lia. simpl. rewrite decide_False by lia.
    rewrite drop_ge; [done|]. destruct Hr as [Hwf Hin]. rewrite (wf_maps _ Hwf Hin). lia.
  - simpl. destruct (decide (i < shards m)) as [Hlt|Hge].
    + destruct (ready_store m i Hr ltac:(lia)) as [store Hs].
      erewrite mus_do_Ret; [|lia|by apply ready_mu; [|lia]|reflexivity].
      rewrite bind_Ret. erewrite index_Ret; [|lia|done]. rewrite bind_Ret.
      erewrite mus_do_released_same; [|lia|by apply ready_mu; [|lia]|reflexivity].
      rewrite bind_Ret, to_int_small by lia.
      rewrite IH by lia.
      rewrite (drop_S _ _ _ Hs). simpl.
      by replace (Z.to_nat (i + 1)) with (S (Z.to_nat i)) by lia.
    + assert (i = shards m) as -> by lia.
      rewrite drop_ge; [done|]. destruct Hr as [Hwf Hin]. rewrite (wf_maps _ Hwf Hin). lia.
Qed.

Lemma contents_size m :
  wf m → size (contents m) = sum_list (size <$> (rhh.data <$> maps m)).
Proof. intros Hwf. apply size_union_list. by apply datas_disjoint. Qed.

Lemma Len_Ret m :
  wf m →
  ∃ m', Len m = Ret (to_int (Z.of_nat (size (contents m))), m') ∧ ready m' ∧
        contents m' = contents m ∧ cap m' = cap m ∧ initDo m = Ret m'.
Proof.
  intros Hwf. destruct (initDo_wf m Hwf) as (m0 & Hm0 & Hr & Hc & Hcap & _).
  exists m0. split_and!; try done.
  unfold Len. rewrite Hm0, bind_Ret.
  pose proof (ready_shards _ Hr). pose proof spec_shards_bounds.
  rewrite Len_loop_Ret; [|done|lia|lia].
  change (Z.to_nat 0) with 0%nat. rewrite drop_0, Len_fold by done.
  rewrite <- contents_size by apply Hr. by rewrite Z.add_0_l, Hc.
Qed.

Lemma Len_refines m :
  wf m → Z.of_nat (size (contents m)) < 2 ^ 63 →
  ∃ m', Len m = Ret (spec_Len (contents m), m') ∧ ready m' ∧
        contents m' = contents m ∧ cap m' = cap m.
Proof.
  intros Hwf Hsz. destruct (Len_Ret m Hwf) as (m' & HL & Hr & Hc & Hcap & _).
  exists m'. split_and!; try done.
  rewrite HL. unfold spec_Len. rewrite to_int_small; [done|lia].
Qed.

(** ** The loop of [Range] *)

(** The closure handed to the store raises [done] exactly when the walk
    stops early, and visits what [iter] would visit. *)
Lemma walk_Range_visit {S'} (iter : string → iface T → S' → bool * S') l s done s' :
  rhh.walk (Range_visit iter) l (false, s) = (done, s') →
  s' = rhh.walk iter l s ∧
  ∀ l2, rhh.walk iter (l ++ l2) s = if done then s' else rhh.walk iter l2 s'.
Proof.
  revert s. induction l as [|[k v] l IH]; simpl; intros s.
  - by intros [= <- <-].
  - destruct (iter k v s) as [[|] s1]; simpl.
    + apply IH.
    + by intros [= <- <-].
Qed.

Lemma Range_loop_Ret {S'} fuel i (iter : string → iface T → S' → bool * S') s m :
  ready m → 0 ≤ i ≤ shards m → (Z.to_nat (shards m - i) ≤ fuel)%nat →
  Range_loop fuel i iter false s m
  = Ret (rhh.walk iter
           (concat (map_to_list <$> (rhh.data <$> drop (Z.to_nat i) (maps m)))) s, m).
Proof.
  intros Hr. pose proof (ready_shards _ Hr) as Hsh. pose proof spec_shards_bounds.
  assert (length (maps m) = Z.to_nat (shards m)) as Hlen
    by (destruct Hr as [Hwf Hin]; exact (wf_maps _ Hwf Hin)).
  revert i s. induction fuel as [|fuel IH]; intros i s Hi Hfuel.
  - assert (i = shards m) as -> by lia. simpl. rewrite decide_False by lia.
    rewrite drop_ge; [done|lia].
  - simpl. destruct (decide (i < shards m)) as [Hlt|Hge].
    + destruct (ready_store m i Hr ltac:(lia)) as [store Hs].
      erewrite mus_do_Ret; [|lia|by apply ready_mu; [|lia]|reflexivity].
      rewrite bind_Ret. erewrite index_Ret; [|lia|done]. rewrite bind_Ret.
      rewrite (drop_S _ _ _ Hs). simpl. unfold rhh.Range.
      destruct (rhh.walk (Range_visit iter) (map_to_list (rhh.data store)) (false, s))
        as [done s'] eqn:Ew.
      apply walk_Range_visit in Ew as [-> Hw]. rewrite Hw.
      erewrite mus_do_released_same; [|lia|by apply ready_mu; [|lia]|reflexivity].
      rewrite bind_Ret. destruct done; [done|].
      rewrite to_int_small by lia. rewrite IH by lia.
      by replace (Z.to_nat (i + 1)) with (S (Z.to_nat i)) by lia.
    + assert (i = shards m) as -> by lia. rewrite drop_ge; [done|lia].
Qed.

(** The entries in the order [Range] offers them: shard by shard. *)
Lemma Range_order m :
  wf m →
  concat (map_to_list <$> (rhh.data <$> maps m)) ≡ₚ map_to_list (contents m).
Proof.
  intros Hwf. symmetry. apply map_to_list_union_list. by apply datas_disjoint.
Qed.

Lemma Range_Ret {S'} (iter : string → iface T → S' → bool * S') s m :
  wf m →
  ∃ m', Range iter s m
          = Ret (rhh.walk iter (concat (map_to_list <$> (rhh.data <$> maps m'))) s, m') ∧
        ready m' ∧ contents m' = contents m ∧ cap m' = cap m ∧ initDo m = Ret m'.
Proof.
  intros Hwf. destruct (initDo_wf m Hwf) as (m0 & Hm0 & Hr & Hc & Hcap & _).
  exists m0. split_and!; try done.
  unfold Range. rewrite Hm0, bind_Ret.
  pose proof (ready_shards _ Hr). pose proof spec_shards_bounds.
  rewrite Range_loop_Ret; [|done|lia|lia].
  change (Z.to_nat 0) with 0%nat. by rewrite drop_0.
Qed.

Lemma Range_refines {S'} (iter : string → iface T → S' → bool * S') s m :
  wf m →
  ∃ s' m', Range iter s m = Ret (s', m') ∧ spec_Range iter s (contents m) s' ∧
           ready m' ∧ contents m' = contents m ∧ cap m' = cap m.
Proof.
  intros Hwf. destruct (Range_Ret iter s m Hwf) as (m' & HR & Hr & Hc & Hcap & _).
  eexists _, m'. split_and!; try done.
  eexists. split; [|done]. rewrite <- Hc. apply Range_order, Hr.
Qed.

(** ** The loop of [Clear] *)

Lemma ready_cleared m n store c :
  ready m → maps m !! n = Some store →
  ready (set_maps m (<[n := rhh.New c]> (maps m))).
Proof.
  intros Hr Hs. eapply ready_update; [done..|].
  intros k Hk. simpl in Hk. rewrite lookup_empty in Hk. by destruct Hk.
Qed.

Lemma Clear_loop_Ret fuel i m :
  ready m → 0 ≤ i ≤ shards m → (Z.to_nat (shards m - i) ≤ fuel)%nat →
  Clear_loop fuel i m
  = Ret (set_maps m (take (Z.to_nat i) (maps m) ++
                     replicate (Z.to_nat (shards m - i))
                       (rhh.New (to_int (cap m ÷ shards m))))).
Proof.
  pose proof spec_shards_bounds.
  revert i m. induction fuel as [|fuel IH]; intros i m Hr Hi Hfuel;
    pose proof (ready_shards _ Hr) as Hsh;
    assert (length (maps m) = Z.to_nat (shards m)) as Hlen
      by (destruct Hr as [Hwf Hin]; exact (wf_maps _ Hwf Hin)).
  - assert (i = shards m) as -> by lia. simpl. rewrite decide_False by lia.
    rewrite Z.sub_diag, take_ge by lia. simpl. by rewrite app_nil_r, set_maps_id.
  - simpl. destruct (decide (i < shards m)) as [Hlt|Hge].
    + destruct (ready_store m i Hr ltac:(lia)) as [store Hs].
      pose proof (ready_mu m i Hr ltac:(lia)) as Hmu.
      erewrite mus_do_Ret; [|lia|done|reflexivity]. rewrite bind_Ret.
      unfold int_div. simpl. rewrite decide_False by lia. rewrite bind_Ret.
      unfold assign. simpl. erewrite index_Ret; [|lia|done]. rewrite !bind_Ret.
      erewrite mus_do_released; [|lia|done|reflexivity]. rewrite bind_Ret.
      rewrite to_int_small by lia.
      rewrite IH; [|by eapply ready_cleared|simpl; lia|simpl; lia].
      simpl. rewrite set_maps_set_maps. f_equal. f_equal.
      replace (Z.to_nat (i + 1)) with (S (Z.to_nat i)) by lia.
      erewrite take_S_r by (apply list_lookup_insert_eq; lia).
      rewrite take_insert_ge by lia. rewrite <- app_assoc. f_equal.
      replace (Z.to_nat (shards m - i)) with (S (Z.to_nat (shards m - (i + 1)))) by lia.
      done.
    + assert (i = shards m) as -> by lia.
      rewrite Z.sub_diag, take_ge by lia. simpl. by rewrite app_nil_r, set_maps_id.
Qed.

Lemma Clear_Ret m :
  wf m →
  ∃ m0, initDo m = Ret m0 ∧ ready m0 ∧
    Clear m = Ret (set_maps m0 (replicate (Z.to_nat (shards m0))
                                  (rhh.New (to_int (cap m0 ÷ shards m0))))).
Proof.
  intros Hwf. destruct (initDo_wf m Hwf) as (m0 & Hm0 & Hr & Hc & Hcap & _).
  exists m0. split_and!; try done.
  unfold Clear. rewrite Hm0, bind_Ret.
  pose proof (ready_shards _ Hr). pose proof spec_shards_bounds.
  rewrite Clear_loop_Ret; [|done|lia|lia].
  change (Z.to_nat 0) with 0%nat. by rewrite take_0, Z.sub_0_r.
Qed.

Lemma Clear_refines m :
  wf m →
  ∃ m', Clear m = Ret m' ∧ ready m' ∧ contents m' = spec_Clear (contents m) ∧
        cap m' = cap m.
Proof.
  intros Hwf. destruct (Clear_Ret m Hwf) as (m0 & Hm0 & Hr & HC).
  destruct (initDo_wf m Hwf) as (m0' & Hm0' & _ & _ & Hcap & _).
  assert (m0' = m0) as -> by congruence.
  eexists. split; [exact HC|]. split_and!.
  - pose proof (ready_shards _ Hr) as Hsh. destruct Hr as [Hwf0 Hi0].
    split; [|done].
    apply (wf_replicate _ (to_int (cap m0 ÷ shards m0))); [done|done| |done].
    exact (wf_mus _ Hwf0 Hi0).
  - by eapply contents_replicate.
  - done.
Qed.

(** ** Invariant and simulation, call by call *)

Lemma New_wf cap : wf (New cap).
Proof.
  split; try (intros H; discriminate H); [|done].
  intros i store key Hl. change (maps (New cap)) with ([] : list (rhh.Map T)) in Hl.
  by rewrite lookup_nil in Hl.
Qed.

Lemma New_contents cap : contents (New cap) = ∅.
Proof. done. Qed.

Lemma do_call_Ret c m :
  wf m → ∃ r m', do_call c m = Ret (r, m') ∧ ready m' ∧ cap m' = cap m.
Proof.
  intros Hwf. destruct c as [key value|key|key|key value accept|key accept| |iter s|]; simpl.
  - destruct (Set_refines key value m Hwf) as (m' & -> & ? & ? & ?). by eexists _, _.
  - destruct (Get_refines key m Hwf) as (m' & -> & ? & ? & ? & ?). by eexists _, _.
  - destruct (Delete_refines key m Hwf) as (m' & -> & ? & ? & ?). by eexists _, _.
  - destruct (SetAccept_refines key value accept m Hwf) as (m' & -> & ? & ? & ?).
    by eexists _, _.
  - destruct (DeleteAccept_refines key accept m Hwf) as (m' & -> & ? & ? & ?).
    by eexists _, _.
  - destruct (Len_Ret m Hwf) as (m' & -> & ? & ? & ? & ?). by eexists _, _.
  - destruct (Range_refines iter s m Hwf) as (s' & m' & -> & ? & ? & ? & ?).
    by eexists _, _.
  - destruct (Clear_refines m Hwf) as (m' & -> & ? & ? & ?). by eexists _, _.
Qed.

Lemma do_call_refines c m :
  wf m → Z.of_nat (size (contents m)) < 2 ^ 63 →
  ∃ r m', do_call c m = Ret (r, m') ∧ ready m' ∧ cap m' = cap m ∧
          spec_call c (contents m) r (contents m').
Proof.
  intros Hwf Hsz.
  destruct c as [key value|key|key|key value accept|key accept| |iter s|];
    cbn [do_call spec_call].
  - destruct (Set_refines key value m Hwf) as (m' & -> & ? & Hc & ?).
    eexists _, _. by rewrite Hc.
  - destruct (Get_refines key m Hwf) as (m' & -> & ? & Hc & ? & ?).
    eexists _, _. by rewrite Hc.
  - destruct (Delete_refines key m Hwf) as (m' & -> & ? & Hc & ?).
    eexists _, _. by rewrite Hc.
  - destruct (SetAccept_refines key value accept m Hwf) as (m' & -> & ? & Hc & ?).
    eexists _, _. by rewrite Hc.
  - destruct (DeleteAccept_refines key accept m Hwf) as (m' & -> & ? & Hc & ?).
    eexists _, _. by rewrite Hc.
  - destruct (Len_refines m Hwf Hsz) as (m' & -> & ? & Hc & ?).
    eexists _, _. by rewrite Hc.
  - destruct (Range_refines iter s m Hwf) as (s' & m' & -> & ? & ? & Hc & ?).
    eexists _, _. rewrite Hc. split_and!; try done. eauto.
  - destruct (Clear_refines m Hwf) as (m' & -> & ? & Hc & ?).
    eexists _, _. by rewrite Hc.
Qed.

Lemma spec_call_size c σ r σ' :
  spec_call c σ r σ' → (size σ' ≤ S (size σ))%nat.
Proof.
  assert (∀ k (v : iface T) (τ : gmap string (iface T)),
            (size (<[k := v]> τ) ≤ S (size τ))%nat) as Hins.
  { intros k v τ. rewrite map_size_insert. destruct (τ !! k); simpl; lia. }
  assert (∀ k (τ : gmap string (iface T)), (size (delete k τ) ≤ size τ)%nat) as Hdel.
  { intros k τ. rewrite map_size_delete. destruct (τ !! k); simpl; lia. }
  destruct c as [key value|key|key|key value accept|key accept| |iter s|]; simpl.
  - intros [= _ <-]. apply Hins.
  - intros [= _ <-]. lia.
  - intros [= _ <-]. pose proof (Hdel key σ). lia.
  - intros [= _ <-]. destruct (decide (accept = None)) as [->|Hne].
    + unfold spec_SetAccept. destruct (spec_lookup key σ). apply Hins.
    + destruct accept as [accept|]; [|done].
      destruct (accept (spec_lookup key σ).1 (spec_lookup key σ).2) eqn:Ea.
      * unfold spec_SetAccept. destruct (spec_lookup key σ). simpl in Ea.
        rewrite Ea. apply Hins.
      * rewrite spec_SetAccept_rejected by done. simpl. lia.
  - intros [= _ <-]. destruct (decide (accept = None)) as [->|Hne].
    + unfold spec_DeleteAccept. destruct (spec_lookup key σ). simpl.
      pose proof (Hdel key σ). lia.
    + destruct accept as [accept|]; [|done].
      destruct (accept (spec_lookup key σ).1 (spec_lookup key σ).2) eqn:Ea.
      * unfold spec_DeleteAccept. destruct (spec_lookup key σ). simpl in Ea.
        rewrite Ea. simpl. pose proof (Hdel key σ). lia.
      * rewrite spec_DeleteAccept_rejected by done. simpl. lia.
  - intros [= _ <-]. lia.
  - intros [_ ->]. lia.
  - intros [= _ <-]. unfold spec_Clear. rewrite map_size_empty. lia.
Qed.

(** ** Sequences of calls *)

Lemma run_ready cs m :
  ready m →
  ∃ rs m', run cs m = Ret (rs, m') ∧ ready m' ∧ cap m' = cap m ∧ shards m' = shards m.
Proof.
  revert m. induction cs as [|c cs IH]; intros m Hr; cbn [run].
  - by eexists _, _.
  - destruct (do_call_Ret c m (proj1 Hr)) as (r & m1 & -> & Hr1 & Hc1). rewrite bind_Ret.
    destruct (IH m1 Hr1) as (rs & m' & -> & Hr' & Hc' & Hs').
    eexists _, _. split_and!; try done; [congruence|].
    by rewrite Hs', !ready_shards.
Qed.

Lemma run_Ret cs m :
  wf m → ∃ rs m', run cs m = Ret (rs, m') ∧ wf m' ∧ cap m' = cap m.
Proof.
  intros Hwf. destruct cs as [|c cs]; cbn [run].
  - by eexists _, _.
  - destruct (do_call_Ret c m Hwf) as (r & m1 & -> & Hr1 & Hc1). rewrite bind_Ret.
    destruct (run_ready cs m1 Hr1) as (rs & m' & -> & Hr' & Hc' & _).
    eexists _, _. split_and!; [done|apply Hr'|congruence].
Qed.

Lemma run_refines cs m :
  wf m → Z.of_nat (size (contents m)) + Z.of_nat (length cs) < 2 ^ 63 →
  ∃ rs m', run cs m = Ret (rs, m') ∧ wf m' ∧ cap m' = cap m ∧
           spec_run cs (contents m) rs (contents m').
Proof.
  revert m. induction cs as [|c cs IH]; intros m Hwf Hsz; cbn [run spec_run].
  - by eexists _, _.
  - cbn [length] in Hsz.
    destruct (do_call_refines c m Hwf ltac:(lia)) as (r & m1 & -> & Hr1 & Hc1 & Hs1).
    rewrite bind_Ret. pose proof (spec_call_size _ _ _ _ Hs1).
    destruct (IH m1 (proj1 Hr1) ltac:(lia)) as (rs & m' & -> & Hwf' & Hc' & Hs').
    eexists _, _. split_and!; [done|done|congruence|]. cbn [spec_run]. eauto.
Qed.

(** * The claims *)

(** C1.  Every sequence of [Set], [Get], [Delete], [SetAccept],
    [DeleteAccept], [Len], [Range] and [Clear] calls on a new map returns,
    and its replies and the entries it leaves are those of one logical
    key/value map given the same calls, from the empty map on.  The
    logical map has no iteration order: a [Range] is matched by a range
    over its entries in some order.  The sequence is shorter than 2^63
    calls, so the count of entries fits the [int] that [Len] returns. *)
Theorem sharded_map_refines_single_map cap (cs : list call) :
  Z.of_nat (length cs) < 2 ^ 63 →
  ∃ rs m, run cs (New cap) = Ret (rs, m) ∧ spec_run cs ∅ rs (contents m).
Proof.
  intros Hlen.
  destruct (run_refines cs (New cap) (New_wf cap)) as (rs & m & Hrun & _ & _ & Hspec).
  - rewrite New_contents, map_size_empty. lia.
  - exists rs, m. by rewrite New_contents in Hspec.
Qed.

(** C5.  The first call's [initDo] sets the number of shards to the
    smallest power of two that is at least [NumCPU * 16]; [choose] returns
    the hash AND-ed with that number minus one, which is the hash modulo
    that number; and no sequence of calls changes the number of shards. *)
Theorem shard_count_and_router cap :
  ∃ m0 k,
    initDo (New cap) = Ret m0 ∧
    0 ≤ k ∧ shards m0 = 2 ^ k ∧ NumCPU * 16 ≤ 2 ^ k ∧
    (∀ j, 0 ≤ j → NumCPU * 16 ≤ 2 ^ j → 2 ^ k ≤ 2 ^ j) ∧
    (∀ key, choose m0 key = Z.land (Sum64String key) (shards m0 - 1) ∧
            choose m0 key = Sum64String key `mod` shards m0) ∧
    (∀ cs : list call, ∃ rs m, run cs m0 = Ret (rs, m) ∧ shards m = shards m0).
Proof.
  destruct (initDo_wf (New cap) (New_wf cap)) as (m0 & Hm0 & Hr & _).
  pose proof (ready_shards _ Hr) as Hs. pose proof log2_up_limit.
  exists m0, (Z.log2_up (NumCPU * 16)). split_and!; try done.
  - lia.
  - apply spec_shards_ge.
  - intros j Hj Hle. apply Z.pow_le_mono_r; [lia|].
    apply Z.log2_up_le_pow2; lia.
  - intros key. split; [by apply choose_land|by apply choose_mod].
  - intros cs. destruct (run_ready cs m0 Hr) as (rs & m & Hrun & _ & _ & Hsh).
    by exists rs, m.
Qed.

(** C10.  After [initDo] the number of shards is a power of two and at
    least 1, there are as many mutexes and stores as shards, and [choose]
    returns an index from 0 up to the number of shards; so no call fails,
    in particular none indexes a slice out of range, and the map a call
    leaves is as well formed as the one it found. *)
Theorem calls_stay_in_bounds m :
  wf m →
  ∃ m0, initDo m = Ret m0 ∧
    1 ≤ shards m0 ∧ (∃ k, 0 ≤ k ∧ shards m0 = 2 ^ k) ∧
    Z.of_nat (length (mus m0)) = shards m0 ∧
    Z.of_nat (length (maps m0)) = shards m0 ∧
    (∀ key, 0 ≤ choose m0 key < shards m0) ∧
    (∀ c : call, do_call c m ≠ Fail IndexOutOfRange ∧
                 ∃ r m', do_call c m = Ret (r, m') ∧ wf m').
Proof.
  intros Hwf. destruct (initDo_wf m Hwf) as (m0 & Hm0 & Hr & _).
  pose proof (ready_shards _ Hr) as Hs. pose proof log2_up_limit.
  pose proof spec_shards_bounds. destruct Hr as [Hwf0 Hi0].
  exists m0. split_and!; try done.
  - lia.
  - exists (Z.log2_up (NumCPU * 16)). split; [lia|done].
  - rewrite (wf_mus _ Hwf0 Hi0), length_replicate. lia.
  - rewrite (wf_maps _ Hwf0 Hi0). lia.
  - intros key. by apply choose_range.
  - intros c. destruct (do_call_Ret c m Hwf) as (r & m' & Hc & Hr' & _).
    split; [by rewrite Hc|]. exists r, m'. split; [done|apply Hr'].
Qed.

Lemma Get_lookup key m r m0 :
  wf m → Get key m = Ret (r, m0) → r = spec_lookup key (contents m).
Proof.
  intros Hwf HG. destruct (Get_refines key m Hwf) as (m' & HG' & _).
  rewrite HG' in HG. by injection HG as <- _.
Qed.

Lemma Get_same_contents m m' k :
  wf m → wf m' → contents m' = contents m →
  ∃ r m1 m2, Get k m = Ret (r, m1) ∧ Get k m' = Ret (r, m2).
Proof.
  intros Hwf Hwf' Hc.
  destruct (Get_refines k m Hwf) as (m1 & HG1 & _).
  destruct (Get_refines k m' Hwf') as (m2 & HG2 & _).
  exists (spec_Get k (contents m)), m1, m2. split; [done|]. by rewrite <- Hc.
Qed.

(** C2.  When the callback of [SetAccept] is called and answers [false],
    [SetAccept] returns [(nil, false)] and a [Get] of the key returns what
    it returned before the call: the previous value with [true], or
    [(nil, false)] for a key that was not there.  A [Get] of any other key
    is unchanged as well. *)
Theorem SetAccept_rejected_restores key value accept prev had m m0 :
  wf m →
  Get key m = Ret ((prev, had), m0) →
  accept prev had = false →
  ∃ m', SetAccept key value (Some accept) m = Ret ((nil, false), m') ∧
        (∃ m'', Get key m' = Ret ((prev, had), m'')) ∧
        (∀ k, ∃ r m1 m2, Get k m = Ret (r, m1) ∧ Get k m' = Ret (r, m2)).
Proof.
  intros Hwf HG Ha. pose proof (Get_lookup _ _ _ _ Hwf HG) as Hl.
  destruct (SetAccept_refines key value (Some accept) m Hwf) as (m' & HS & Hr & Hc & _).
  rewrite spec_SetAccept_rejected in HS, Hc by (by rewrite <- Hl).
  exists m'. split; [done|]. split.
  - destruct (Get_refines key m' (proj1 Hr)) as (m'' & HG' & _).
    exists m''. by rewrite HG', Hc, Hl.
  - intros k. apply Get_same_contents; [done|apply Hr|done].
Qed.

(** C3, as the code has it.  After [Set("hello", world)] and a
    [SetAccept("hello", planet, cb)] that [cb] accepts, the [SetAccept]
    has returned [(world, true)] and [Get("hello")] returns
    [(planet, true)]; a [SetAccept("hello", world, cb2)] that [cb2]
    rejects then returns [(nil, false)], and [Get("hello")] still returns
    [(planet, true)]. *)
Theorem hello_scenario_keeps_planet world planet cb cb2 :
  cb world true = true →
  cb2 planet true = false →
  hello_scenario world planet (Some cb) (Some cb2)
  = Ret ((world, true), (planet, true), (nil, false), (planet, true)).
Proof.
  intros Hcb Hcb2. unfold hello_scenario.
  destruct (Set_refines "hello" world (New 0) (New_wf 0)) as (m1 & -> & Hr1 & Hc1 & _).
  rewrite bind_Ret. cbn beta iota.
  rewrite New_contents in Hc1. unfold spec_Set in Hc1. cbn [snd] in Hc1.
  destruct (SetAccept_refines "hello" planet (Some cb) m1 (proj1 Hr1))
    as (m2 & -> & Hr2 & Hc2 & _).
  rewrite bind_Ret. cbn beta iota.
  assert (spec_SetAccept "hello" planet (Some cb) (contents m1)
          = ((world, true), <[("hello" : string) := planet]> (contents m1))) as E2.
  { unfold spec_SetAccept, spec_lookup. rewrite Hc1, lookup_insert_eq. by rewrite Hcb. }
  rewrite E2 in Hc2 |- *. cbn [fst snd] in Hc2 |- *.
  destruct (Get_refines "hello" m2 (proj1 Hr2)) as (m3 & -> & Hr3 & Hc3 & _).
  rewrite bind_Ret. cbn beta iota.
  assert (spec_lookup "hello" (contents m2) = (planet, true)) as E3.
  { unfold spec_lookup. by rewrite Hc2, lookup_insert_eq. }
  destruct (SetAccept_refines "hello" world (Some cb2) m3 (proj1 Hr3))
    as (m4 & -> & Hr4 & Hc4 & _).
  rewrite bind_Ret. cbn beta iota.
  rewrite spec_SetAccept_rejected in Hc4 |- * by (by rewrite Hc3, E3).
  cbn [fst snd] in Hc4 |- *.
  destruct (Get_refines "hello" m4 (proj1 Hr4)) as (m5 & -> & _).
  rewrite bind_Ret. cbn beta iota.
  unfold spec_Get. by rewrite Hc4, Hc3, E3.
Qed.

(** C4.  When the callback of [DeleteAccept] answers [false], the call
    returns [(nil, false)] and a [Get] of the key returns what it returned
    before: the deleted value is back.  When the callback answers [true],
    or there is none, the call returns the previous value and whether it
    deleted one, and the key is gone. *)
Theorem DeleteAccept_restores_or_deletes key prev had m m0 :
  wf m →
  Get key m = Ret ((prev, had), m0) →
  (∀ accept, accept prev had = false →
     ∃ m', DeleteAccept key (Some accept) m = Ret ((nil, false), m') ∧
           ∃ m'', Get key m' = Ret ((prev, had), m'')) ∧
  (∀ accept, from_option (λ f, f prev had) true accept = true →
     ∃ m', DeleteAccept key accept m = Ret ((prev, had), m') ∧
           ∃ m'', Get key m' = Ret ((nil, false), m'')).
Proof.
  intros Hwf HG. pose proof (Get_lookup _ _ _ _ Hwf HG) as Hl. split.
  - intros accept Ha.
    destruct (DeleteAccept_refines key (Some accept) m Hwf) as (m' & HS & Hr & Hc & _).
    rewrite spec_DeleteAccept_rejected in HS, Hc by (by rewrite <- Hl).
    exists m'. split; [done|].
    destruct (Get_refines key m' (proj1 Hr)) as (m'' & HG' & _).
    exists m''. by rewrite HG', Hc, Hl.
  - intros accept Ha.
    destruct (DeleteAccept_refines key accept m Hwf) as (m' & HS & Hr & Hc & _).
    assert (spec_DeleteAccept key accept (contents m)
            = ((prev, had), delete key (contents m))) as E.
    { unfold spec_DeleteAccept. rewrite <- Hl.
      destruct accept as [f|]; simpl in Ha; by rewrite ?Ha. }
    rewrite E in HS, Hc. cbn [fst snd] in HS, Hc. exists m'. split; [done|].
    destruct (Get_refines key m' (proj1 Hr)) as (m'' & HG' & _).
    exists m''. rewrite HG'. unfold spec_Get, spec_lookup.
    by rewrite Hc, lookup_delete_eq.
Qed.

(** ** Inserting and deleting lists of keys *)

Lemma run_sets (kvs : list (string * iface T)) m :
  wf m →
  ∃ rs m', run ((λ kv, CSet kv.1 kv.2) <$> kvs) m = Ret (rs, m') ∧ wf m' ∧
           contents m' = foldl (λ σ kv, <[kv.1 := kv.2]> σ) (contents m) kvs.
Proof.
  revert m. induction kvs as [|[k v] kvs IH]; intros m Hwf; cbn [fmap list_fmap run foldl].
  - by eexists _, _.
  - cbn [do_call fst snd].
    destruct (Set_refines k v m Hwf) as (m1 & -> & Hr1 & Hc1 & _).
    rewrite !bind_Ret.
    destruct (IH m1 (proj1 Hr1)) as (rs & m' & -> & Hwf' & Hc').
    rewrite bind_Ret. eexists _, _. split_and!; [done|done|].
    by rewrite Hc', Hc1.
Qed.

Lemma run_deletes (dels : list string) m :
  wf m →
  ∃ rs m', run (CDelete <$> dels) m = Ret (rs, m') ∧ wf m' ∧
           contents m' = foldl (λ σ k, delete k σ) (contents m) dels.
Proof.
  revert m. induction dels as [|k dels IH]; intros m Hwf; cbn [fmap list_fmap run foldl].
  - by eexists _, _.
  - cbn [do_call].
    destruct (Delete_refines k m Hwf) as (m1 & -> & Hr1 & Hc1 & _).
    rewrite !bind_Ret.
    destruct (IH m1 (proj1 Hr1)) as (rs & m' & -> & Hwf' & Hc').
    rewrite bind_Ret. eexists _, _. split_and!; [done|done|].
    by rewrite Hc', Hc1.
Qed.

Lemma foldl_insert_lookup (kvs : list (string * iface T))
    (σ : gmap string (iface T)) k :
  k ∈ kvs.*1 ∨ is_Some (σ !! k) →
  is_Some (foldl (λ σ kv, <[kv.1 := kv.2]> σ) σ kvs !! k).
Proof.
  revert σ. induction kvs as [|[k' v] kvs IH]; intros σ; cbn [foldl fmap list_fmap].
  - intros [H|H]; [by apply elem_of_nil in H|done].
  - intros H. apply IH. cbn [fst snd].
    destruct (decide (k' = k)) as [->|Hne].
    + right. by rewrite lookup_insert_eq.
    + rewrite lookup_insert_ne by done.
      destruct H as [H|H]; [|by right]. apply elem_of_cons in H as [H|H]; [|by left].
      by simpl in H.
Qed.

Lemma foldl_insert_size (kvs : list (string * iface T))
    (σ : gmap string (iface T)) :
  NoDup kvs.*1 → (∀ k, k ∈ kvs.*1 → σ !! k = None) →
  size (foldl (λ σ kv, <[kv.1 := kv.2]> σ) σ kvs) = (size σ + length kvs)%nat.
Proof.
  revert σ. induction kvs as [|[k v] kvs IH]; intros σ Hnd Hfresh;
    cbn [foldl fmap list_fmap length fst snd] in *.
  - lia.
  - apply NoDup_cons in Hnd as [Hk Hnd].
    rewrite IH; [|done|].
    + rewrite map_size_insert_None; [lia|]. apply Hfresh. by left.
    + intros k' Hk'. rewrite lookup_insert_ne by (by intros ->).
      apply Hfresh. by right.
Qed.

Lemma foldl_delete_size (dels : list string) (σ : gmap string (iface T)) :
  NoDup dels → (∀ k, k ∈ dels → is_Some (σ !! k)) →
  (size (foldl (λ σ k, delete k σ) σ dels) + length dels)%nat = size σ.
Proof.
  revert σ. induction dels as [|k dels IH]; intros σ Hnd Hin; cbn [foldl length].
  - lia.
  - apply NoDup_cons in Hnd as [Hk Hnd].
    pose proof (Hin k ltac:(by left)) as Hsome.
    pose proof (IH (delete k σ) Hnd) as IH'. rewrite map_size_delete_Some in IH' by done.
    assert (size σ ≠ 0%nat).
    { apply map_size_non_empty_iff. intros ->. rewrite lookup_empty in Hsome.
      by destruct Hsome. }
    assert (∀ k', k' ∈ dels → is_Some (delete k σ !! k')) as Hin'.
    { intros k' Hk'. rewrite lookup_delete_ne by (by intros ->). apply Hin. by right. }
    specialize (IH' Hin'). lia.
Qed.

(** C6.  After [Set] on each of N distinct keys of a new map, [Len]
    returns N; after [Delete] on M distinct keys among them, [Len] returns
    N - M.  N is less than 2^63, as an [int] count is. *)
Theorem Len_counts_inserts_and_deletes cap
    (kvs : list (string * iface T)) (dels : list string) :
  NoDup kvs.*1 → NoDup dels → dels ⊆ kvs.*1 →
  Z.of_nat (length kvs) < 2 ^ 63 →
  ∃ rs1 m1 m1' rs2 m2 m2',
    run ((λ kv, CSet kv.1 kv.2) <$> kvs) (New cap) = Ret (rs1, m1) ∧
    Len m1 = Ret (Z.of_nat (length kvs), m1') ∧
    run (CDelete <$> dels) m1' = Ret (rs2, m2) ∧
    Len m2 = Ret (Z.of_nat (length kvs) - Z.of_nat (length dels), m2').
Proof.
  intros Hnd Hndd Hsub Hlen.
  destruct (run_sets kvs (New cap) (New_wf cap)) as (rs1 & m1 & Hrun1 & Hwf1 & Hc1).
  rewrite New_contents in Hc1.
  assert (size (contents m1) = length kvs) as Hsz1.
  { rewrite Hc1, foldl_insert_size, map_size_empty; [done|done|].
    intros k _. apply lookup_empty. }
  destruct (Len_Ret m1 Hwf1) as (m1' & HL1 & Hr1' & Hc1' & _).
  destruct (run_deletes dels m1' (proj1 Hr1')) as (rs2 & m2 & Hrun2 & Hwf2 & Hc2).
  destruct (Len_Ret m2 Hwf2) as (m2' & HL2 & _).
  assert (size (contents m2) + length dels = length kvs)%nat as Hsz2.
  { rewrite Hc2, foldl_delete_size, Hc1', Hsz1; [done|done|].
    intros k Hk. rewrite Hc1', Hc1. apply foldl_insert_lookup. left. by apply Hsub. }
  exists rs1, m1, m1', rs2, m2, m2'. split_and!; try done.
  - rewrite HL1, Hsz1, to_int_small; [done|lia].
  - rewrite HL2. replace (Z.of_nat (size (contents m2)))
      with (Z.of_nat (length kvs) - Z.of_nat (length dels)) by lia.
    rewrite to_int_small; [done|lia].
Qed.

(** C7.  On a map with at least one entry, a visitor that answers [false]
    the first time it is called is called exactly once by [Range], on an
    entry of the map, however many shards there are and wherever the
    entries are: the counter of its calls ends at 1. *)
Theorem Range_stops_after_first_visit
    (iter : string → iface T → St → bool * St) s key0 v0 m m0 :
  wf m →
  Get key0 m = Ret ((v0, true), m0) →
  (∀ k v, (iter k v s).1 = false) →
  ∃ k v m', contents m !! k = Some v ∧
            Range (counted iter) (s, 0%nat) m = Ret (((iter k v s).2, 1%nat), m').
Proof.
  intros Hwf HG Hfalse. pose proof (Get_lookup _ _ _ _ Hwf HG) as Hl.
  assert (contents m !! key0 = Some v0) as H0.
  { unfold spec_lookup in Hl. by destruct (contents m !! key0); simplify_eq. }
  destruct (Range_Ret (counted iter) (s, 0%nat) m Hwf) as (m' & HR & Hr & Hc & _).
  pose proof (Range_order m' (proj1 Hr)) as Hperm. rewrite Hc in Hperm.
  destruct (concat (map_to_list <$> (rhh.data <$> maps m'))) as [|[k v] L] eqn:EL.
  - apply Permutation_nil_l in Hperm. symmetry in Hperm.
    apply map_to_list_empty_iff in Hperm.
    by rewrite Hperm, lookup_empty in H0.
  - exists k, v, m'. split.
    + apply elem_of_map_to_list. rewrite <- Hperm. by left.
    + rewrite HR. cbn [rhh.walk]. unfold counted. cbn [fst snd].
      pose proof (Hfalse k v) as Hf. by destruct (iter k v s) as [[|] s1].
Qed.

(** C8.  [Clear] returns; afterwards [Len] returns 0 and [Get] returns
    [(nil, false)] for every key.  The number of shards and the routing
    are those of the map before, and every store is a new empty one with
    the capacity hint of [initDo]: the map is the one [initDo] makes from
    a new map of the same capacity, and nothing but the stores differs
    from the map [Clear] found. *)
Theorem Clear_resets_every_store m :
  wf m →
  ∃ m0 m',
    initDo m = Ret m0 ∧ Clear m = Ret m' ∧
    m' = set_maps m0 (replicate (Z.to_nat (shards m0))
                        (rhh.New (to_int (cap m0 ÷ shards m0)))) ∧
    initDo (New (cap m)) = Ret m' ∧
    (∃ m'', Len m' = Ret (0, m'')) ∧
    (∀ key, ∃ m'', Get key m' = Ret ((nil, false), m'')) ∧
    shards m' = shards m0 ∧
    (∀ key, choose m' key = choose m0 key).
Proof.
  intros Hwf. destruct (Clear_Ret m Hwf) as (m0 & Hm0 & Hr & HC).
  destruct (Clear_refines m Hwf) as (m' & HC' & Hr' & Hc' & _).
  destruct (initDo_wf m Hwf) as (m0' & Hm0' & _ & _ & Hcap & _).
  assert (m0' = m0) as -> by congruence.
  rewrite HC in HC'. injection HC' as <-.
  exists m0. eexists. split_and!; try done.
  - rewrite initDo_fresh by done.
    pose proof (ready_shards _ Hr) as Hs. destruct Hr as [Hwf0 Hi0].
    pose proof (wf_mus _ Hwf0 Hi0) as Hmus. rewrite Hs in Hmus.
    unfold set_maps. by rewrite Hi0, Hcap, Hs, Hmus.
  - destruct (Len_Ret _ (proj1 Hr')) as (m'' & HL & _).
    exists m''. by rewrite HL, Hc'.
  - intros key. destruct (Get_refines key _ (proj1 Hr')) as (m'' & HG & _).
    exists m''. by rewrite HG, Hc'.
Qed.

(** ** Keys that are never set *)

Lemma do_call_absent c key m :
  wf m → sets key c = false → contents m !! key = None →
  ∃ r m', do_call c m = Ret (r, m') ∧ ready m' ∧ contents m' !! key = None.
Proof.
  intros Hwf Hc Hk.
  destruct c as [k v|k|k|k v accept|k accept| |iter s|]; cbn [do_call sets] in *.
  - apply bool_decide_eq_false in Hc.
    destruct (Set_refines k v m Hwf) as (m' & -> & ? & Hc' & ?).
    eexists _, _. split_and!; try done. rewrite Hc'. unfold spec_Set. cbn [snd].
    by rewrite lookup_insert_ne.
  - destruct (Get_refines k m Hwf) as (m' & -> & ? & Hc' & ?).
    eexists _, _. split_and!; try done. by rewrite Hc'.
  - destruct (Delete_refines k m Hwf) as (m' & -> & ? & Hc' & ?).
    eexists _, _. split_and!; try done. rewrite Hc'. unfold spec_Delete. cbn [snd].
    rewrite lookup_delete. by case_decide.
  - apply bool_decide_eq_false in Hc.
    destruct (SetAccept_refines k v accept m Hwf) as (m' & -> & ? & Hc' & ?).
    eexists _, _. split_and!; try done. rewrite Hc'.
    destruct (spec_SetAccept_local k v accept) as [_ Hoth].
    by rewrite Hoth by done.
  - destruct (DeleteAccept_refines k accept m Hwf) as (m' & -> & ? & Hc' & ?).
    eexists _, _. split_and!; try done. rewrite Hc'.
    destruct (decide (k = key)) as [->|Hne].
    + unfold spec_DeleteAccept, spec_lookup. rewrite Hk.
      destruct accept as [f|]; [destruct (f nil false)|]; cbn [snd];
        by rewrite lookup_delete_eq.
    + destruct (spec_DeleteAccept_local k accept) as [_ Hoth].
      by rewrite Hoth by done.
  - destruct (Len_Ret m Hwf) as (m' & -> & ? & Hc' & ?).
    eexists _, _. split_and!; try done. by rewrite Hc'.
  - destruct (Range_refines iter s m Hwf) as (s' & m' & -> & ? & ? & Hc' & ?).
    eexists _, _. split_and!; try done. by rewrite Hc'.
  - destruct (Clear_refines m Hwf) as (m' & -> & ? & Hc' & ?).
    eexists _, _. split_and!; try done. by rewrite Hc'.
Qed.

Lemma run_absent cs key m :
  wf m → Forall (λ c, sets key c = false) cs → contents m !! key = None →
  ∃ rs m', run cs m = Ret (rs, m') ∧ wf m' ∧ contents m' !! key = None.
Proof.
  revert m. induction cs as [|c cs IH]; intros m Hwf Hcs Hk; cbn [run].
  - by eexists _, _.
  - apply Forall_cons in Hcs as [Hc Hcs].
    destruct (do_call_absent c key m Hwf Hc Hk) as (r & m1 & -> & Hr1 & Hk1).
    rewrite bind_Ret.
    destruct (IH m1 (proj1 Hr1) Hcs Hk1) as (rs & m' & -> & Hwf' & Hk').
    by eexists _, _.
Qed.

(** C9.  On a new map of any capacity, after any calls none of which sets
    the key, [Get] and [Delete] of the key return [(nil, false)], and on
    the new map itself [Len] returns 0: each call returns, with the flag
    [false] next to [nil]. *)
Theorem never_set_key_is_absent cap (cs : list call) key :
  Forall (λ c, sets key c = false) cs →
  ∃ rs m,
    run cs (New cap) = Ret (rs, m) ∧
    (∃ m', Get key m = Ret ((nil, false), m')) ∧
    (∃ m', Delete key m = Ret ((nil, false), m')) ∧
    (∃ m', Len (New cap) = Ret (0, m')).
Proof.
  intros Hcs.
  destruct (run_absent cs key (New cap) (New_wf cap) Hcs) as (rs & m & Hrun & Hwf & Hk).
  { by rewrite New_contents, lookup_empty. }
  exists rs, m. split_and!; try done.
  - destruct (Get_refines key m Hwf) as (m' & HG & _).
    exists m'. rewrite HG. unfold spec_Get, spec_lookup. by rewrite Hk.
  - destruct (Delete_refines key m Hwf) as (m' & HD & _).
    exists m'. rewrite HD. unfold spec_Delete, spec_lookup. cbn [fst]. by rewrite Hk.
  - destruct (Len_Ret (New cap) (New_wf cap)) as (m' & HL & _).
    exists m'. by rewrite HL, New_contents.
Qed.

(** ** The invariant along calls *)

Lemma do_call_wf (c : call) m r m' : wf m → do_call c m = Ret (r, m') → wf m'.
Proof.
  intros Hwf Hc. destruct (do_call_Ret c m Hwf) as (r1 & m1 & Hc1 & Hr1 & _).
  rewrite Hc1 in Hc. injection Hc as _ <-. apply Hr1.
Qed.

Lemma run_wf (cs : list call) m rs m' : wf m → run cs m = Ret (rs, m') → wf m'.
Proof.
  intros Hwf Hc. destruct (run_Ret cs m Hwf) as (rs1 & m1 & Hc1 & Hwf1 & _).
  rewrite Hc1 in Hc. by injection Hc as _ <-.
Qed.

Lemma Set_wf key value m r m' : wf m → Set_ key value m = Ret (r, m') → wf m'.
Proof.
  intros Hwf Hc. destruct (Set_refines key value m Hwf) as (m1 & Hc1 & Hr1 & _).
  rewrite Hc1 in Hc. injection Hc as _ <-. apply Hr1.
Qed.

(** * Further properties of the calls *)

(** ** One key at a time *)

Lemma op_initDo {R} (body : Map → res R) m m0 :
  initDo m = Ret m0 → ready m0 →
  (m ← initDo m; body m) = (m ← initDo m0; body m).
Proof. intros H Hr. by rewrite H, (initDo_ready _ Hr). Qed.

(** [Set] returns what [Get] returned just before it; afterwards [Get] of
    the key returns the value set, with [true], and [Get] of any other key
    returns what it did before. *)
Theorem Set_then_Get key value m :
  wf m →
  ∃ r m0 m1,
    Get key m = Ret (r, m0) ∧ Set_ key value m = Ret (r, m1) ∧
    (∃ m2, Get key m1 = Ret ((value, true), m2)) ∧
    (∀ k, k ≠ key → ∃ r' m2 m3, Get k m = Ret (r', m2) ∧ Get k m1 = Ret (r', m3)).
Proof.
  intros Hwf.
  destruct (Get_refines key m Hwf) as (m0 & HG & _).
  destruct (Set_refines key value m Hwf) as (m1 & HS & Hr1 & Hc1 & _).
  exists (spec_lookup key (contents m)), m0, m1. split_and!; try done.
  - destruct (Get_refines key m1 (proj1 Hr1)) as (m2 & HG1 & _).
    exists m2. rewrite HG1, Hc1. unfold spec_Get, spec_lookup, spec_Set. cbn [snd].
    by rewrite lookup_insert_eq.
  - intros k Hk.
    destruct (Get_refines k m Hwf) as (m2 & HG2 & _).
    destruct (Get_refines k m1 (proj1 Hr1)) as (m3 & HG3 & _).
    exists (spec_Get k (contents m)), m2, m3. split; [done|].
    rewrite HG3, Hc1. unfold spec_Get, spec_lookup, spec_Set. cbn [snd].
    by rewrite lookup_insert_ne.
Qed.

(** [Delete] returns what [Get] returned just before it; afterwards [Get]
    of the key returns [(nil, false)], a second [Delete] returns
    [(nil, false)], and [Get] of any other key returns what it did before. *)
Theorem Delete_then_Get key m :
  wf m →
  ∃ r m0 m1,
    Get key m = Ret (r, m0) ∧ Delete key m = Ret (r, m1) ∧
    (∃ m2, Get key m1 = Ret ((nil, false), m2)) ∧
    (∃ m2, Delete key m1 = Ret ((nil, false), m2)) ∧
    (∀ k, k ≠ key → ∃ r' m2 m3, Get k m = Ret (r', m2) ∧ Get k m1 = Ret (r', m3)).
Proof.
  intros Hwf.
  destruct (Get_refines key m Hwf) as (m0 & HG & _).
  destruct (Delete_refines key m Hwf) as (m1 & HS & Hr1 & Hc1 & _).
  assert (contents m1 !! key = None) as Hnone.
  { rewrite Hc1. unfold spec_Delete. cbn [snd]. apply lookup_delete_eq. }
  exists (spec_lookup key (contents m)), m0, m1. split_and!; try done.
  - destruct (Get_refines key m1 (proj1 Hr1)) as (m2 & HG1 & _).
    exists m2. rewrite HG1. unfold spec_Get, spec_lookup. by rewrite Hnone.
  - destruct (Delete_refines key m1 (proj1 Hr1)) as (m2 & HD1 & _).
    exists m2. rewrite HD1. unfold spec_Delete, spec_lookup. cbn [fst]. by rewrite Hnone.
  - intros k Hk.
    destruct (Get_refines k m Hwf) as (m2 & HG2 & _).
    destruct (Get_refines k m1 (proj1 Hr1)) as (m3 & HG3 & _).
    exists (spec_Get k (contents m)), m2, m3. split; [done|].
    rewrite HG3, Hc1. unfold spec_Get, spec_lookup, spec_Delete. cbn [snd].
    by rewrite lookup_delete_ne.
Qed.

Lemma ready_lookup key m store :
  ready m → maps m !! Z.to_nat (choose m key) = Some store →
  spec_lookup key (rhh.data store) = spec_lookup key (contents m).
Proof.
  intros Hr Hs. unfold spec_lookup.
  rewrite (contents_lookup m key store); [done|apply Hr| |done].
  apply choose_range, ready_shards, Hr.
Qed.

(** [SetAccept] with no callback, or with one that accepts, is [Set]: the
    same reply and the same map. *)
Theorem SetAccept_accepted_is_Set key value accept prev had m m0 :
  wf m →
  Get key m = Ret ((prev, had), m0) →
  from_option (λ f, f prev had) true accept = true →
  SetAccept key value accept m = Set_ key value m.
Proof.
  intros Hwf HG Ha. pose proof (Get_lookup _ _ _ _ Hwf HG) as Hl.
  destruct (initDo_wf m Hwf) as (m1 & Hm1 & Hr & Hc & _).
  unfold SetAccept, Set_.
  rewrite (op_initDo _ _ _ Hm1 Hr), (op_initDo (R := (iface T * bool) * Map) _ _ _ Hm1 Hr).
  pose proof (choose_range m1 key (ready_shards _ Hr)) as Hrg.
  destruct (ready_store m1 _ Hr Hrg) as [store Hs].
  pose proof (SetAccept_ready key value accept m1 store Hr Hs) as E1.
  pose proof (Set_ready key value m1 store Hr Hs) as E2.
  unfold SetAccept in E1. unfold Set_ in E2. rewrite E1, E2.
  assert (spec_SetAccept key value accept (rhh.data store)
          = spec_Set key value (rhh.data store)) as E.
  { unfold spec_SetAccept, spec_Set.
    rewrite (ready_lookup key m1 store Hr Hs), Hc, <- Hl.
    destruct accept as [f|]; simpl in Ha; by rewrite ?Ha. }
  unfold store_do. by rewrite E.
Qed.

(** [DeleteAccept] with no callback, or with one that accepts, is
    [Delete]: the same reply and the same map. *)
Theorem DeleteAccept_accepted_is_Delete key accept prev had m m0 :
  wf m →
  Get key m = Ret ((prev, had), m0) →
  from_option (λ f, f prev had) true accept = true →
  DeleteAccept key accept m = Delete key m.
Proof.
  intros Hwf HG Ha. pose proof (Get_lookup _ _ _ _ Hwf HG) as Hl.
  destruct (initDo_wf m Hwf) as (m1 & Hm1 & Hr & Hc & _).
  unfold DeleteAccept, Delete.
  rewrite (op_initDo _ _ _ Hm1 Hr), (op_initDo (R := (iface T * bool) * Map) _ _ _ Hm1 Hr).
  pose proof (choose_range m1 key (ready_shards _ Hr)) as Hrg.
  destruct (ready_store m1 _ Hr Hrg) as [store Hs].
  pose proof (DeleteAccept_ready key accept m1 store Hr Hs) as E1.
  pose proof (Delete_ready key m1 store Hr Hs) as E2.
  unfold DeleteAccept in E1. unfold Delete in E2. rewrite E1, E2.
  assert (spec_DeleteAccept key accept (rhh.data store)
          = spec_Delete key (rhh.data store)) as E.
  { unfold spec_DeleteAccept, spec_Delete.
    rewrite (ready_lookup key m1 store Hr Hs), Hc, <- Hl.
    destruct accept as [f|]; simpl in Ha; by rewrite ?Ha. }
  unfold store_do. by rewrite E.
Qed.

(** ** Counting *)

(** [Set] on a key that was not there raises [Len] by one and on a key that
    was there leaves it; [Delete] of a key that was there lowers [Len] by
    one and of a key that was not there leaves it. *)
Theorem Len_follows_Set_and_Delete key value m :
  wf m → Z.of_nat (size (contents m)) < 2 ^ 63 - 1 →
  ∃ n prev had m0,
    Len m = Ret (n, m0) ∧
    (∃ m1 m2, Set_ key value m = Ret ((prev, had), m1) ∧
              Len m1 = Ret ((if had then n else n + 1), m2)) ∧
    (∃ m1 m2, Delete key m = Ret ((prev, had), m1) ∧
              Len m1 = Ret ((if had then n - 1 else n), m2)).
Proof.
  intros Hwf Hsz.
  destruct (Len_refines m Hwf ltac:(lia)) as (m0 & HL & _).
  destruct (Set_refines key value m Hwf) as (m1 & HS & Hr1 & Hc1 & _).
  destruct (Delete_refines key m Hwf) as (m1' & HD & Hr1' & Hc1' & _).
  unfold spec_Set in HS, Hc1. unfold spec_Delete in HD, Hc1'. cbn [fst snd] in *.
  exists (spec_Len (contents m)), (spec_lookup key (contents m)).1,
         (spec_lookup key (contents m)).2, m0.
  rewrite <- surjective_pairing. split; [done|].
  pose proof (map_size_insert key value (contents m)) as Hins.
  pose proof (map_size_delete key (contents m)) as Hdel.
  unfold spec_Len, spec_lookup. split.
  - destruct (Len_refines m1 (proj1 Hr1)) as (m2 & HL1 & _).
    { rewrite Hc1, Hins. destruct (contents m !! key); simpl; lia. }
    exists m1, m2. split; [done|]. rewrite HL1, Hc1. unfold spec_Len. rewrite Hins.
    destruct (contents m !! key); simpl; [done|]. do 2 f_equal. lia.
  - destruct (Len_refines m1' (proj1 Hr1')) as (m2 & HL1 & _).
    { rewrite Hc1', Hdel. destruct (contents m !! key); simpl; lia. }
    exists m1', m2. split; [done|]. rewrite HL1, Hc1'. unfold spec_Len. rewrite Hdel.
    destruct (contents m !! key) eqn:E; simpl; [|done]. do 2 f_equal.
    assert (size (contents m) ≠ 0%nat); [|lia].
    apply map_size_non_empty_iff. intros E0. by rewrite E0, lookup_empty in E.
Qed.

(** ** Mutexes and shards along a run *)

(** Whatever the calls, also a rejected [SetAccept] or [DeleteAccept] and a
    [Range] that stops early, every mutex is unlocked when the call
    returns. *)
Theorem calls_release_every_mutex cap (cs : list call) :
  ∃ rs m, run cs (New cap) = Ret (rs, m) ∧
          ∀ mu, mu ∈ mus m → mu = sync.zero.
Proof.
  destruct cs as [|c cs].
  - exists [], (New cap). split; [done|]. intros mu Hmu. by apply elem_of_nil in Hmu.
  - cbn [run].
    destruct (do_call_Ret c (New cap) (New_wf cap)) as (r & m1 & -> & Hr1 & _).
    rewrite bind_Ret.
    destruct (run_ready cs m1 Hr1) as (rs & m & -> & [Hwf Hi] & _).
    rewrite bind_Ret. eexists _, _. split; [done|].
    intros mu Hmu. rewrite (wf_mus _ Hwf Hi) in Hmu.
    by apply elem_of_replicate in Hmu as [-> _].
Qed.

(** Every entry sits in the shard [choose] gives for its key, so no key is
    in two shards, and [Get] finds every entry that is in a store. *)
Theorem entries_stay_in_their_shard cap (cs : list call) :
  ∃ rs m, run cs (New cap) = Ret (rs, m) ∧
    (∀ i store key v,
       maps m !! i = Some store → rhh.data store !! key = Some v →
       choose m key = Z.of_nat i ∧ ∃ m', Get key m = Ret ((v, true), m')) ∧
    (∀ i j s1 s2 key,
       maps m !! i = Some s1 → maps m !! j = Some s2 →
       is_Some (rhh.data s1 !! key) → is_Some (rhh.data s2 !! key) → i = j).
Proof.
  destruct (run_Ret cs (New cap) (New_wf cap)) as (rs & m & Hrun & Hwf & _).
  exists rs, m. split_and!; [done| |].
  - intros i store key v Hi Hv.
    pose proof (wf_route _ Hwf i store key Hi (mk_is_Some _ _ Hv)) as Hch.
    split; [done|].
    destruct (Get_refines key m Hwf) as (m' & HG & _). exists m'.
    rewrite HG. unfold spec_Get, spec_lookup.
    rewrite (contents_lookup m key store); [by rewrite Hv|done|lia|].
    by rewrite Hch, Nat2Z.id.
  - intros i j s1 s2 key Hi Hj H1 H2.
    pose proof (wf_route _ Hwf i s1 key Hi H1).
    pose proof (wf_route _ Hwf j s2 key Hj H2). lia.
Qed.

(** [initDo] does its work once: on the map it returns it changes
    nothing, and no call changes the capacity, the number of shards, the
    mutexes or the number of stores. *)
Theorem initDo_runs_once m :
  wf m →
  ∃ m0, initDo m = Ret m0 ∧ initDo m0 = Ret m0 ∧
    ∀ c : call, ∃ r m',
      do_call c m0 = Ret (r, m') ∧ init m' = true ∧ cap m' = cap m0 ∧
      shards m' = shards m0 ∧ mus m' = mus m0 ∧ length (maps m') = length (maps m0).
Proof.
  intros Hwf. destruct (initDo_wf m Hwf) as (m0 & Hm0 & Hr & _).
  exists m0. split_and!; [done|by apply initDo_ready|].
  intros c. destruct (do_call_Ret c m0 (proj1 Hr)) as (r & m' & Hc & Hr' & Hcap).
  exists r, m'. pose proof (ready_shards _ Hr) as Hs. pose proof (ready_shards _ Hr') as Hs'.
  destruct Hr as [Hwf0 Hi0]. destruct Hr' as [Hwf' Hi'].
  split_and!; try done.
  - congruence.
  - rewrite (wf_mus _ Hwf0 Hi0), (wf_mus _ Hwf' Hi'). congruence.
  - rewrite (wf_maps _ Hwf0 Hi0), (wf_maps _ Hwf' Hi'). congruence.
Qed.

(** ** Ranging over all entries *)

Lemma walk_collect (l acc : list (string * iface T)) :
  rhh.walk (λ key value acc, (true, (key, value) :: acc)) l acc = reverse l ++ acc.
Proof.
  revert acc. induction l as [|[k v] l IH]; intros acc; cbn [rhh.walk]; [done|].
  by rewrite IH, reverse_cons, <- app_assoc.
Qed.

Lemma Get_true_lookup k v m :
  wf m → (∃ m', Get k m = Ret ((v, true), m')) ↔ contents m !! k = Some v.
Proof.
  intros Hwf. destruct (Get_refines k m Hwf) as (m0 & HG & _).
  rewrite HG. unfold spec_Get, spec_lookup. split.
  - intros [m' Hm']. destruct (contents m !! k); by simplify_eq.
  - intros ->. by exists m0.
Qed.

(** A visitor that always answers [true] is called once on every entry and
    on nothing else: the pairs it is given are the pairs [Get] finds, no key
    comes twice, and there are as many as [Len] counts. *)
Theorem Range_visits_every_entry_once m :
  wf m →
  ∃ l m',
    Range (λ key value acc, (true, (key, value) :: acc)) [] m = Ret (l, m') ∧
    NoDup l.*1 ∧
    (∀ k v, (k, v) ∈ l ↔ ∃ m2, Get k m = Ret ((v, true), m2)) ∧
    (Z.of_nat (length l) < 2 ^ 63 → ∃ m2, Len m = Ret (Z.of_nat (length l), m2)).
Proof.
  intros Hwf.
  destruct (Range_Ret (λ key value acc, (true, (key, value) :: acc)) [] m Hwf)
    as (m' & HR & Hr & Hc & _).
  pose proof (Range_order m' (proj1 Hr)) as Hperm. rewrite Hc in Hperm.
  rewrite walk_collect, app_nil_r in HR.
  set (L := concat (map_to_list <$> (rhh.data <$> maps m'))) in *.
  assert (reverse L ≡ₚ map_to_list (contents m)) as HP
    by (by rewrite reverse_Permutation).
  exists (reverse L), m'. split_and!; [done| | |].
  - rewrite HP. apply NoDup_fst_map_to_list.
  - intros k v. rewrite HP, elem_of_map_to_list. symmetry. by apply Get_true_lookup.
  - assert (length (reverse L) = size (contents m)) as ->
      by (by rewrite HP, length_map_to_list).
    intros Hlen. destruct (Len_refines m Hwf Hlen) as (m2 & HL & _). by exists m2.
Qed.

(** On a map in which [Get] finds no key, [Range] never calls the visitor:
    it returns the visitor's state as it was. *)
Theorem Range_without_entries {S'} (iter : string → iface T → S' → bool * S') s m :
  wf m →
  (∀ k, ∃ m', Get k m = Ret ((nil, false), m')) →
  ∃ m', Range iter s m = Ret (s, m').
Proof.
  intros Hwf Hno.
  assert (contents m = ∅) as He.
  { apply map_eq. intros k. rewrite lookup_empty.
    destruct (Hno k) as [m' Hm']. pose proof (Get_lookup _ _ _ _ Hwf Hm') as Hl.
    unfold spec_lookup in Hl. by destruct (contents m !! k). }
  destruct (Range_Ret iter s m Hwf) as (m' & HR & Hr & Hc & _).
  pose proof (Range_order m' (proj1 Hr)) as Hperm.
  rewrite Hc, He, map_to_list_empty in Hperm. apply Permutation_nil_r in Hperm.
  exists m'. by rewrite HR, Hperm.
Qed.

(** ** Calls made while a mutex is held *)

Lemma Lock_held mu :
  sync.writer mu = true ∨ sync.readers mu ≠ 0%nat → sync.Lock mu = Fail Deadlock.
Proof.
  unfold sync.Lock. intros [->|Hr]; [done|].
  destruct (sync.writer mu); [done|]. by destruct (sync.readers mu).
Qed.

Lemma mus_do_Fail f i m mu e :
  0 ≤ i → mus m !! Z.to_nat i = Some mu → f mu = Fail e → mus_do f i m = Fail e.
Proof.
  intros Hi Hmu Hf. unfold mus_do. rewrite (index_Ret _ _ _ Hi Hmu). simpl.
  by rewrite Hf.
Qed.

Lemma initDo_done m : init m = true → initDo m = Ret m.
Proof. intros Hi. unfold initDo. by rewrite Hi. Qed.

(** The callback of [SetAccept] and [DeleteAccept] runs with the mutex of
    the key's shard locked, and the visitor of [Range] with it read-locked.
    In such a state [Set], [Delete], [SetAccept] and [DeleteAccept] of a key
    of that shard never get the mutex, and under a locked mutex neither does
    [Get]. *)
Theorem calls_deadlock_on_a_held_shard key m mu :
  init m = true →
  0 ≤ choose m key →
  mus m !! Z.to_nat (choose m key) = Some mu →
  sync.writer mu = true ∨ sync.readers mu ≠ 0%nat →
  (∀ value, Set_ key value m = Fail Deadlock) ∧
  Delete key m = Fail Deadlock ∧
  (∀ value accept, SetAccept key value accept m = Fail Deadlock) ∧
  (∀ accept, DeleteAccept key accept m = Fail Deadlock) ∧
  (sync.writer mu = true → Get key m = Fail Deadlock).
Proof.
  intros Hi H0 Hmu Hheld. pose proof (Lock_held mu Hheld) as HL.
  split_and!; intros.
  - unfold Set_. rewrite (initDo_done _ Hi), bind_Ret.
    by rewrite (mus_do_Fail _ _ _ _ _ H0 Hmu HL).
  - unfold Delete. rewrite (initDo_done _ Hi), bind_Ret.
    by rewrite (mus_do_Fail _ _ _ _ _ H0 Hmu HL).
  - unfold SetAccept. rewrite (initDo_done _ Hi), bind_Ret.
    by rewrite (mus_do_Fail _ _ _ _ _ H0 Hmu HL).
  - unfold DeleteAccept. rewrite (initDo_done _ Hi), bind_Ret.
    by rewrite (mus_do_Fail _ _ _ _ _ H0 Hmu HL).
  - unfold Get. rewrite (initDo_done _ Hi), bind_Ret.
    erewrite mus_do_Fail; [done|done|done|].
    unfold sync.RLock. by match goal with H : sync.writer mu = true |- _ => rewrite H end.
Qed.

Lemma Get_read_locked key m mu store :
  init m = true →
  0 ≤ choose m key →
  mus m !! Z.to_nat (choose m key) = Some mu →
  sync.writer mu = false →
  maps m !! Z.to_nat (choose m key) = Some store →
  Get key m = Ret (rhh.Get key store, m).
Proof.
  intros Hi H0 Hmu Hw Hs. unfold Get. rewrite (initDo_done _ Hi), bind_Ret.
  erewrite mus_do_Ret; [|done|done|]; [|by unfold sync.RLock; rewrite Hw].
  rewrite bind_Ret. erewrite index_Ret; [|done|done]. rewrite bind_Ret.
  erewrite (mus_do_Ret sync.RUnlock _ _
              {| sync.writer := false; sync.readers := S (sync.readers mu) |});
    [|done| |reflexivity].
  2:{ simpl. apply list_lookup_insert_eq. by eapply lookup_lt_Some. }
  rewrite bind_Ret. do 2 f_equal. unfold set_mus. simpl.
  rewrite list_insert_insert_eq, list_insert_id; [by destruct m|].
  rewrite Hmu. f_equal. destruct mu as [w r]. simpl in *. by subst.
Qed.

(** Under a read lock, as in the visitor of [Range], [Get] of a key of the
    same shard returns the entry and leaves the mutex as it found it. *)
Theorem Get_under_a_read_lock key m mu store :
  init m = true →
  0 ≤ choose m key →
  mus m !! Z.to_nat (choose m key) = Some mu →
  sync.writer mu = false →
  maps m !! Z.to_nat (choose m key) = Some store →
  Get key m = Ret (rhh.Get key store, m).
Proof. apply Get_read_locked. Qed.

Lemma Set_unlocked key value m store :
  init m = true → 0 ≤ choose m key →
  mus m !! Z.to_nat (choose m key) = Some sync.zero →
  maps m !! Z.to_nat (choose m key) = Some store →
  Set_ key value m =
    Ret ((rhh.Set_ key value store).1,
         set_maps m (<[Z.to_nat (choose m key) := (rhh.Set_ key value store).2]> (maps m))).
Proof.
  intros Hi H0 Hmu Hs. unfold Set_. rewrite (initDo_done _ Hi), bind_Ret.
  erewrite mus_do_Ret; [|done|done|reflexivity]. rewrite bind_Ret.
  erewrite maps_do_Ret; [|done|done]. rewrite bind_Ret.
  erewrite mus_do_released; [|done|done|reflexivity].
  by rewrite bind_Ret.
Qed.

(** While the mutex of one shard is held, [Set] and [Get] of a key of
    another shard return what they return when no mutex is held, and leave
    the held mutex as it is. *)
Theorem other_shards_stay_available key value m n mu :
  ready m →
  n ≠ Z.to_nat (choose m key) →
  ∃ r m1 g,
    Set_ key value m = Ret (r, m1) ∧
    Set_ key value (set_mus m (<[n := mu]> (mus m)))
      = Ret (r, set_mus m1 (<[n := mu]> (mus m1))) ∧
    Get key m = Ret (g, m) ∧
    Get key (set_mus m (<[n := mu]> (mus m)))
      = Ret (g, set_mus m (<[n := mu]> (mus m))).
Proof.
  intros Hr Hn. pose proof (choose_range m key (ready_shards _ Hr)) as Hrg.
  destruct (ready_store m _ Hr Hrg) as [store Hs].
  pose proof (ready_mu m _ Hr Hrg) as Hmu.
  assert (init m = true) as Hi by apply Hr.
  assert (mus (set_mus m (<[n := mu]> (mus m))) !! Z.to_nat (choose m key) = Some sync.zero)
    as Hmu' by (simpl; by rewrite list_lookup_insert_ne).
  eexists _, _, _. split_and!.
  - apply Set_unlocked; [done|lia|done|done].
  - by rewrite (Set_unlocked key value _ store); [|done|apply Hrg|done|done].
  - apply (Get_read_locked key m sync.zero store); [done|lia|done|done|done].
  - apply (Get_read_locked key _ sync.zero store); [done|apply Hrg|done|done|done].
Qed.

Lemma Len_loop_deadlock m n mu fuel j len :
  shards m ≤ 2 ^ 62 → Z.of_nat n < shards m →
  mus m !! n = Some mu →
  sync.writer mu = true ∨ sync.readers mu ≠ 0%nat →
  (∀ i, (i < n)%nat → mus m !! i = Some sync.zero ∧ is_Some (maps m !! i)) →
  (j ≤ n)%nat → (n - j < fuel)%nat →
  Len_loop fuel (Z.of_nat j) len m = Fail Deadlock.
Proof.
  intros Hsh Hn Hmu Hheld Hbefore. revert j len.
  induction fuel as [|fuel IH]; intros j len Hj Hfuel; [lia|].
  cbn [Len_loop]. rewrite decide_True by lia.
  destruct (decide (j = n)) as [->|Hne].
  - erewrite mus_do_Fail; [done|lia| |by apply Lock_held]. by rewrite Nat2Z.id.
  - destruct (Hbefore j ltac:(lia)) as [Hz [store Hs]].
    erewrite mus_do_Ret; [|lia|by rewrite Nat2Z.id|reflexivity]. rewrite bind_Ret.
    erewrite index_Ret; [|lia|by rewrite Nat2Z.id]. rewrite bind_Ret.
    erewrite mus_do_released_same; [|lia|by rewrite Nat2Z.id|reflexivity].
    rewrite bind_Ret, to_int_small by lia.
    replace (Z.of_nat j + 1) with (Z.of_nat (S j)) by lia. apply IH; lia.
Qed.

(** [Len] locks every mutex in turn: called while any of them is held, as
    from a callback of [SetAccept] or a visitor of [Range], it never
    returns. *)
Theorem Len_deadlocks_while_a_mutex_is_held m n mu :
  ready m →
  (n < length (mus m))%nat →
  sync.writer mu = true ∨ sync.readers mu ≠ 0%nat →
  Len (set_mus m (<[n := mu]> (mus m))) = Fail Deadlock.
Proof.
  intros Hr Hn Hheld. pose proof (ready_shards _ Hr) as Hs.
  pose proof spec_shards_bounds. destruct Hr as [Hwf Hi].
  pose proof (wf_mus _ Hwf Hi) as Hmus. pose proof (wf_maps _ Hwf Hi) as Hmaps.
  assert (length (mus m) = Z.to_nat (shards m)) as Hlen
    by (by rewrite Hmus, length_replicate).
  unfold Len. rewrite initDo_done by done. rewrite bind_Ret.
  apply (Len_loop_deadlock _ n mu _ 0%nat); simpl; try lia; try done.
  - by apply list_lookup_insert_eq.
  - intros i Hin. split.
    + rewrite list_lookup_insert_ne by lia. rewrite Hmus. apply lookup_replicate_2. lia.
    + apply lookup_lt_is_Some. lia.
Qed.

(** ** The loop of [initDo] for any number of CPUs

    Nothing here uses the bound on [NumCPU]. *)

Lemma grow_shards_zero fuel :
  0 < to_int (NumCPU * 16) → grow_shards fuel 0 = Fail NoTermination.
Proof.
  clear NumCPU_range. intros HL. induction fuel as [|fuel IH]; cbn [grow_shards];
    rewrite decide_True by done; [done|].
  by replace (to_int (0 * 2)) with 0 by reflexivity.
Qed.

Lemma grow_shards_min fuel :
  0 < to_int (NumCPU * 16) → grow_shards fuel (- 2 ^ 63) = Fail NoTermination.
Proof.
  clear NumCPU_range. intros HL. destruct fuel as [|fuel]; cbn [grow_shards];
    rewrite decide_True by lia; [done|].
  replace (to_int (- 2 ^ 63 * 2)) with 0 by reflexivity. by apply grow_shards_zero.
Qed.

Lemma grow_shards_overflow j fuel :
  2 ^ 62 < to_int (NumCPU * 16) → 0 ≤ j ≤ 62 →
  grow_shards fuel (2 ^ j) = Fail NoTermination.
Proof.
  clear NumCPU_range. intros HL. revert j. induction fuel as [|fuel IH]; intros j Hj;
    assert (2 ^ j ≤ 2 ^ 62) by (apply Z.pow_le_mono_r; lia);
    cbn [grow_shards]; rewrite decide_True by lia; [done|].
  destruct (decide (j = 62)) as [->|Hne].
  - replace (to_int (2 ^ 62 * 2)) with (- 2 ^ 63) by reflexivity.
    apply grow_shards_min. lia.
  - assert (2 ^ j * 2 = 2 ^ (j + 1)) as -> by (rewrite Z.pow_add_r; lia).
    assert (2 ^ (j + 1) ≤ 2 ^ 62) by (apply Z.pow_le_mono_r; lia).
    assert (0 < 2 ^ (j + 1)) by (apply Z.pow_pos_nonneg; lia).
    rewrite to_int_small by lia. apply IH. lia.
Qed.

Lemma grow_shards_upto k j fuel :
  0 ≤ j ≤ k → k ≤ 62 → to_int (NumCPU * 16) ≤ 2 ^ k →
  (∀ i, 0 ≤ i < k → 2 ^ i < to_int (NumCPU * 16)) →
  (Z.to_nat (k - j) ≤ fuel)%nat →
  grow_shards fuel (2 ^ j) = Ret (2 ^ k).
Proof.
  clear NumCPU_range. intros Hj Hk Hle Hlt. revert j Hj. induction fuel as [|fuel IH]; intros j Hj Hfuel.
  - assert (j = k) as -> by lia. cbn [grow_shards]. by rewrite decide_False by lia.
  - cbn [grow_shards]. destruct (decide (j = k)) as [->|Hne].
    + by rewrite decide_False by lia.
    + rewrite decide_True by (apply Hlt; lia).
      assert (2 ^ j * 2 = 2 ^ (j + 1)) as -> by (rewrite Z.pow_add_r; lia).
      assert (2 ^ (j + 1) ≤ 2 ^ 62) by (apply Z.pow_le_mono_r; lia).
      assert (0 < 2 ^ (j + 1)) by (apply Z.pow_pos_nonneg; lia).
      rewrite to_int_small by lia. apply IH; lia.
Qed.

(** Whenever [NumCPU() * 16], as an [int], is at most 2^62, also when it
    is zero or negative, the loop of [initDo] ends within 62 doublings at
    the smallest power of two that is not below it, that is at 1 when it is
    at most 1; more fuel changes nothing, and [initDo] makes that many
    stores. *)
Theorem shard_loop_ends cap :
  to_int (NumCPU * 16) ≤ 2 ^ 62 →
  ∃ k, 0 ≤ k ≤ 62 ∧
       to_int (NumCPU * 16) ≤ 2 ^ k ∧
       (∀ i, 0 ≤ i < k → 2 ^ i < to_int (NumCPU * 16)) ∧
       (∀ fuel, (62 ≤ fuel)%nat → grow_shards fuel 1 = Ret (2 ^ k)) ∧
       ∃ m0, initDo (New cap) = Ret m0 ∧ shards m0 = 2 ^ k ∧
             length (mus m0) = Z.to_nat (2 ^ k) ∧ length (maps m0) = Z.to_nat (2 ^ k).
Proof.
  clear NumCPU_range. intros HL. set (L := to_int (NumCPU * 16)) in *.
  set (k := if decide (L ≤ 1) then 0 else Z.log2_up L).
  assert (0 ≤ k ≤ 62 ∧ L ≤ 2 ^ k ∧ ∀ i, 0 ≤ i < k → 2 ^ i < L) as (Hk & Hle & Hlt).
  { subst k. case_decide as H1.
    - split_and!; [lia|lia|simpl; lia|intros; lia].
    - pose proof (Z.log2_up_spec L ltac:(lia)) as [Hlo Hhi].
      assert (Z.log2_up L ≤ 62).
      { change 62 with (Z.log2_up (2 ^ 62)). by apply Z.log2_up_le_mono. }
      pose proof (Z.log2_up_nonneg L).
      split_and!; [lia|lia|done|]. intros i Hi.
      eapply Z.le_lt_trans; [|exact Hlo]. apply Z.pow_le_mono_r; lia. }
  assert (∀ fuel, (62 ≤ fuel)%nat → grow_shards fuel 1 = Ret (2 ^ k)) as Hgrow.
  { intros fuel Hfuel. apply (grow_shards_upto k 0); try done; lia. }
  exists k. split_and!; try done; try lia.
  assert (0 < 2 ^ k) by (apply Z.pow_pos_nonneg; lia).
  eexists. split.
  - unfold initDo. cbn [init New]. rewrite Hgrow by (unfold grow_fuel; lia).
    rewrite bind_Ret. unfold int_div, make. rewrite !decide_False by lia.
    rewrite !bind_Ret. rewrite decide_False by lia. by rewrite bind_Ret.
  - cbn [shards mus maps]. by rewrite !length_replicate.
Qed.

(** When [NumCPU() * 16], as an [int], is above 2^62, the doubling wraps
    to 0 before it reaches it and the loop never ends: [initDo] and with it
    every call never return. *)
Theorem shard_loop_never_ends cap :
  2 ^ 62 < to_int (NumCPU * 16) →
  (∀ fuel, grow_shards fuel 1 = Fail NoTermination) ∧
  initDo (New cap) = Fail NoTermination ∧
  (∀ key value, Set_ key value (New cap) = Fail NoTermination) ∧
  (∀ key, Get key (New cap) = Fail NoTermination) ∧
  Len (New cap) = Fail NoTermination.
Proof.
  clear NumCPU_range. intros HL.
  assert (∀ fuel, grow_shards fuel 1 = Fail NoTermination) as Hgrow
    by (intros fuel; apply (grow_shards_overflow 0); [done|lia]).
  assert (initDo (New cap) = Fail NoTermination) as Hinit.
  { unfold initDo. cbn [init New]. by rewrite Hgrow. }
  split_and!; try done.
  - intros key value. unfold Set_. by rewrite Hinit.
  - intros key. unfold Get. by rewrite Hinit.
  - unfold Len. by rewrite Hinit.
Qed.

End Shardmap.

(** * The keys of the benchmark *)

Lemma string_of_bytes_letters (s : list Z) :
  Forall (λ b, 97 ≤ b ≤ 122) s →
  String.length (string_of_bytes s) = length s ∧
  Forall (λ c, (97 ≤ Ascii.N_of_ascii c ≤ 122)%N)
         (String.list_ascii_of_string (string_of_bytes s)).
Proof.
  induction 1 as [|b s Hb Hs [IHlen IHall]]; cbn [string_of_bytes foldr]; [done|].
  fold (string_of_bytes s). cbn [String.length String.list_ascii_of_string length].
  split; [by rewrite IHlen|]. apply Forall_cons. split; [|done].
  rewrite Ascii.N_ascii_embedding by lia. lia.
Qed.

(** [randKey] with [n] at least 0 returns a key of [n] characters, each a
    letter from [a] to [z], whatever bytes the generator gives; with a
    negative [n] it panics in [make]. *)
Theorem randKey_letters (read : nat → Z) (n : Z) :
  (0 ≤ n →
   ∃ key, randKey read n = Ret key ∧
          String.length key = Z.to_nat n ∧
          Forall (λ c, (97 ≤ Ascii.N_of_ascii c ≤ 122)%N)
                 (String.list_ascii_of_string key)) ∧
  (n < 0 → randKey read n = Fail MakeOutOfRange).
Proof.
  unfold randKey, make. split; intros Hn.
  - rewrite decide_False by lia. rewrite bind_Ret. eexists. split; [done|].
    set (s := (λ b, to_byte (97 + b `mod` 26)) <$> _).
    assert (length s = Z.to_nat n) as Hlen
      by (subst s; by rewrite length_fmap, length_imap, length_replicate).
    destruct (string_of_bytes_letters s) as [H1 H2]; [|by rewrite H1].
    subst s. apply Forall_fmap, Forall_forall. intros b _. simpl. unfold to_byte.
    pose proof (Z.mod_pos_bound b 26 ltac:(lia)). rewrite Z.mod_small; lia.
  - by rewrite decide_True by lia.
Qed.

(** * The theorems at work

    One machine with one CPU, so 16 shards; the keys are routed by
    [example_hash]; the values are strings. *)

Lemma sharded_map_refines_single_map_witness :
  let cs : list (@call string nat) :=
    [CSet "a" (Some "x"); CGet "a";
     CSetAccept "b" (Some "y") (Some (λ _ _, false));
     CSet "b" (Some "z"); CLen;
     CRange (λ _ _ n, (true, S n)) 0%nat;
     CDeleteAccept "a" None; CDelete "a"; CClear] in
  ∃ rs m, run example_hash 1 cs (New 8) = Ret (rs, m) ∧ spec_run cs ∅ rs (contents m).
Proof.
  intros cs. apply (sharded_map_refines_single_map example_hash 1); [lia|].
  vm_compute. reflexivity.
Defined.

Lemma SetAccept_rejected_restores_witness :
  ∃ m, Set_ example_hash 1 "hello" (Some "world") (New 0) = Ret ((nil, false), m) ∧
  ∃ m', SetAccept example_hash 1 "hello" (Some "planet") (Some (λ _ _, false)) m
          = Ret ((nil, false), m') ∧
        (∃ m'', Get example_hash 1 "hello" m' = Ret ((Some "world", true), m'')) ∧
        (∀ k, ∃ r m1 m2, Get example_hash 1 k m = Ret (r, m1) ∧
                         Get example_hash 1 k m' = Ret (r, m2)).
Proof.
  eexists. split; [vm_compute; reflexivity|].
  eapply (SetAccept_rejected_restores example_hash 1); [lia| | |reflexivity].
  - apply (Set_wf example_hash 1 ltac:(lia) "hello" (Some "world") (New 0) (nil, false));
      [apply New_wf|vm_compute; reflexivity].
  - vm_compute. reflexivity.
Defined.

Lemma hello_scenario_keeps_planet_witness :
  hello_scenario example_hash 1 (Some "world") (Some "planet")
    (Some (λ _ _, true)) (Some (λ _ _, false))
  = Ret ((Some "world", true), (Some "planet", true), (nil, false), (Some "planet", true)).
Proof.
  apply (hello_scenario_keeps_planet example_hash 1); [lia|reflexivity|reflexivity].
Defined.

(** C3 as the spec words it: the last [Get] would return [("world", true)].
    It returns [("planet", true)]. *)
Lemma hello_scenario_world_counterexample :
  hello_scenario example_hash 1 (Some "world") (Some "planet")
    (Some (λ _ _, true)) (Some (λ _ _, false))
  ≠ Ret ((Some "world", true), (Some "planet", true), (nil, false), (Some "world", true)).
Proof. vm_compute. intros H. discriminate H. Qed.

Lemma DeleteAccept_restores_or_deletes_witness :
  ∃ m, Set_ example_hash 1 "hello" (Some "world") (New 0) = Ret ((nil, false), m) ∧
    (∃ m', DeleteAccept example_hash 1 "hello" (Some (λ _ _, false)) m
             = Ret ((nil, false), m') ∧
           ∃ m'', Get example_hash 1 "hello" m' = Ret ((Some "world", true), m'')) ∧
    (∃ m', DeleteAccept example_hash 1 "hello" None m = Ret ((Some "world", true), m') ∧
           ∃ m'', Get example_hash 1 "hello" m' = Ret ((nil, false), m'')).
Proof.
  eexists. split; [vm_compute; reflexivity|].
  match goal with |- context [DeleteAccept _ _ _ None ?m] => set (m1 := m) end.
  edestruct (DeleteAccept_restores_or_deletes example_hash 1 ltac:(lia)
               "hello" (Some "world") true m1) as [Hreject Haccept].
  - apply (Set_wf example_hash 1 ltac:(lia) "hello" (Some "world") (New 0) (nil, false));
      [apply New_wf|vm_compute; reflexivity].
  - vm_compute. reflexivity.
  - split; [apply (Hreject (λ _ _, false))|apply (Haccept None)]; reflexivity.
Defined.

Lemma shard_count_and_router_witness :
  ∃ (m0 : @Map string) k,
    initDo 1 (New 1000) = Ret m0 ∧
    0 ≤ k ∧ shards m0 = 2 ^ k ∧ 1 * 16 ≤ 2 ^ k ∧
    (∀ j, 0 ≤ j → 1 * 16 ≤ 2 ^ j → 2 ^ k ≤ 2 ^ j) ∧
    (∀ key, choose example_hash m0 key = Z.land (example_hash key) (shards m0 - 1) ∧
            choose example_hash m0 key = example_hash key `mod` shards m0) ∧
    (∀ cs : list (@call string nat),
       ∃ rs m, run example_hash 1 cs m0 = Ret (rs, m) ∧ shards m = shards m0).
Proof. apply (shard_count_and_router example_hash 1). lia. Defined.

Lemma Len_counts_inserts_and_deletes_witness :
  let kvs : list (string * iface string) := [("a", Some "1"); ("b", Some "2"); ("c", nil)] in
  let dels : list string := ["c"; "a"] in
  ∃ rs1 m1 m1' rs2 m2 m2',
    run (St := nat) example_hash 1 ((λ kv, CSet kv.1 kv.2) <$> kvs) (New 0) = Ret (rs1, m1) ∧
    Len 1 m1 = Ret (3, m1') ∧
    run (St := nat) example_hash 1 (CDelete <$> dels) m1' = Ret (rs2, m2) ∧
    Len 1 m2 = Ret (3 - 2, m2').
Proof.
  intros kvs dels.
  apply (Len_counts_inserts_and_deletes example_hash 1 ltac:(lia) 0 kvs dels).
  - apply (bool_decide_unpack _). vm_compute. exact I.
  - apply (bool_decide_unpack _). vm_compute. exact I.
  - apply (bool_decide_unpack _). vm_compute. exact I.
  - vm_compute. reflexivity.
Defined.

Lemma Range_stops_after_first_visit_witness :
  let iter (more : bool) : string → iface string → nat → bool * nat :=
    λ _ _ n, (more, S n) in
  ∃ rs m,
    run (St := nat) example_hash 1
      [CSet "a" (Some "x"); CSet "b" (Some "y"); CSet "hello" (Some "world")] (New 0)
    = Ret (rs, m) ∧
    choose example_hash m "a" ≠ choose example_hash m "b" ∧
    choose example_hash m "b" ≠ choose example_hash m "hello" ∧
    choose example_hash m "a" ≠ choose example_hash m "hello" ∧
    (∃ m', Range 1 (counted (iter true)) (7%nat, 0%nat) m = Ret ((10%nat, 3%nat), m')) ∧
    ∃ k v m', contents m !! k = Some v ∧
      Range 1 (counted (iter false)) (7%nat, 0%nat) m = Ret ((8%nat, 1%nat), m').
Proof.
  intros iter. eexists _, _. split; [vm_compute; reflexivity|].
  split_and!.
  - vm_compute. intros H. discriminate H.
  - vm_compute. intros H. discriminate H.
  - vm_compute. intros H. discriminate H.
  - eexists. vm_compute. reflexivity.
  - eapply (Range_stops_after_first_visit example_hash 1 ltac:(lia)
              (iter false) 7%nat "hello" (Some "world")).
    + apply (run_wf (St := nat) example_hash 1 ltac:(lia)
               [CSet "a" (Some "x"); CSet "b" (Some "y"); CSet "hello" (Some "world")]
               (New 0) [RPair (nil, false); RPair (nil, false); RPair (nil, false)]);
        [apply New_wf|vm_compute; reflexivity].
    + vm_compute. reflexivity.
    + reflexivity.
Defined.

Lemma Clear_resets_every_store_witness :
  ∃ m, Set_ example_hash 1 "hello" (Some "world") (New 100) = Ret ((nil, false), m) ∧
  ∃ m0 m',
    initDo 1 m = Ret m0 ∧ Clear 1 m = Ret m' ∧
    m' = set_maps m0 (replicate (Z.to_nat (shards m0))
                        (rhh.New (to_int (cap m0 ÷ shards m0)))) ∧
    initDo 1 (New (cap m)) = Ret m' ∧
    (∃ m'', Len 1 m' = Ret (0, m'')) ∧
    (∀ key, ∃ m'', Get example_hash 1 key m' = Ret ((nil, false), m'')) ∧
    shards m' = shards m0 ∧
    (∀ key, choose example_hash m' key = choose example_hash m0 key).
Proof.
  eexists. split; [vm_compute; reflexivity|].
  apply (Clear_resets_every_store example_hash 1 ltac:(lia)).
  apply (Set_wf example_hash 1 ltac:(lia) "hello" (Some "world") (New 100) (nil, false));
    [apply New_wf|vm_compute; reflexivity].
Defined.

Lemma never_set_key_is_absent_witness :
  let cs : list (@call string nat) :=
    [CSet "a" (Some "x"); CGet "b"; CSetAccept "a" nil None;
     CDeleteAccept "b" None; CDelete "a"] in
  ∃ rs m,
    run example_hash 1 cs (New 0) = Ret (rs, m) ∧
    (∃ m', Get example_hash 1 "b" m = Ret ((nil, false), m')) ∧
    (∃ m', Delete example_hash 1 "b" m = Ret ((nil, false), m')) ∧
    (∃ m', Len 1 (New (T := string) 0) = Ret (0, m')).
Proof.
  intros cs. apply (never_set_key_is_absent example_hash 1 ltac:(lia) 0 cs "b").
  repeat (apply Forall_cons_2; [reflexivity|]). apply Forall_nil_2.
Defined.

Lemma calls_stay_in_bounds_witness :
  ∃ m0, initDo 1 (New (T := string) 0) = Ret m0 ∧
    1 ≤ shards m0 ∧ (∃ k, 0 ≤ k ∧ shards m0 = 2 ^ k) ∧
    Z.of_nat (length (mus m0)) = shards m0 ∧
    Z.of_nat (length (maps m0)) = shards m0 ∧
    (∀ key, 0 ≤ choose example_hash m0 key < shards m0) ∧
    (∀ c : @call string nat,
       do_call example_hash 1 c (New 0) ≠ Fail IndexOutOfRange ∧
       ∃ r m', do_call example_hash 1 c (New 0) = Ret (r, m') ∧ wf example_hash 1 m').
Proof. apply (calls_stay_in_bounds example_hash 1 ltac:(lia) (New 0)), New_wf. Defined.

(** * The further properties at work

    The map of these examples holds three entries, in three shards. *)

Local Abbreviation three_sets :=
  [CSet "a" (Some "x"); CSet "b" (Some "y"); CSet "hello" (Some "world")].

Ltac three_keys_wf :=
  apply (run_wf (St := nat) example_hash 1 ltac:(lia) three_sets (New 0)
           [RPair (nil, false); RPair (nil, false); RPair (nil, false)]);
  [apply New_wf|vm_compute; reflexivity].

Ltac three_keys_ready := split; [three_keys_wf|vm_compute; reflexivity].

Lemma Set_then_Get_witness :
  ∃ rs m, run (St := nat) example_hash 1 three_sets (New 0) = Ret (rs, m) ∧
  ∃ r m0 m1,
    Get example_hash 1 "b" m = Ret (r, m0) ∧
    Set_ example_hash 1 "b" (Some "z") m = Ret (r, m1) ∧
    (∃ m2, Get example_hash 1 "b" m1 = Ret ((Some "z", true), m2)) ∧
    (∀ k, k ≠ "b" → ∃ r' m2 m3,
       Get example_hash 1 k m = Ret (r', m2) ∧ Get example_hash 1 k m1 = Ret (r', m3)).
Proof.
  eexists _, _. split; [vm_compute; reflexivity|].
  apply (Set_then_Get example_hash 1 ltac:(lia)). three_keys_wf.
Defined.

Lemma Delete_then_Get_witness :
  ∃ rs m, run (St := nat) example_hash 1 three_sets (New 0) = Ret (rs, m) ∧
  ∃ r m0 m1,
    Get example_hash 1 "b" m = Ret (r, m0) ∧
    Delete example_hash 1 "b" m = Ret (r, m1) ∧
    (∃ m2, Get example_hash 1 "b" m1 = Ret ((nil, false), m2)) ∧
    (∃ m2, Delete example_hash 1 "b" m1 = Ret ((nil, false), m2)) ∧
    (∀ k, k ≠ "b" → ∃ r' m2 m3,
       Get example_hash 1 k m = Ret (r', m2) ∧ Get example_hash 1 k m1 = Ret (r', m3)).
Proof.
  eexists _, _. split; [vm_compute; reflexivity|].
  apply (Delete_then_Get example_hash 1 ltac:(lia)). three_keys_wf.
Defined.

Lemma SetAccept_accepted_is_Set_witness :
  ∃ rs m, run (St := nat) example_hash 1 three_sets (New 0) = Ret (rs, m) ∧
    SetAccept example_hash 1 "b" (Some "z") (Some (λ _ had, had)) m
    = Set_ example_hash 1 "b" (Some "z") m.
Proof.
  eexists _, _. split; [vm_compute; reflexivity|].
  eapply (SetAccept_accepted_is_Set example_hash 1 ltac:(lia)
            "b" (Some "z") (Some (λ _ had, had)) (Some "y") true).
  - three_keys_wf.
  - vm_compute. reflexivity.
  - reflexivity.
Defined.

Lemma DeleteAccept_accepted_is_Delete_witness :
  ∃ rs m, run (St := nat) example_hash 1 three_sets (New 0) = Ret (rs, m) ∧
    DeleteAccept example_hash 1 "b" (Some (λ prev _, bool_decide (prev = Some "y"))) m
    = Delete example_hash 1 "b" m.
Proof.
  eexists _, _. split; [vm_compute; reflexivity|].
  eapply (DeleteAccept_accepted_is_Delete example_hash 1 ltac:(lia)
            "b" (Some (λ prev _, bool_decide (prev = Some "y"))) (Some "y") true).
  - three_keys_wf.
  - vm_compute. reflexivity.
  - vm_compute. reflexivity.
Defined.

Lemma Len_follows_Set_and_Delete_witness :
  ∃ rs m, run (St := nat) example_hash 1 three_sets (New 0) = Ret (rs, m) ∧
  ∃ n prev had m0,
    Len 1 m = Ret (n, m0) ∧
    (∃ m1 m2, Set_ example_hash 1 "b" (Some "z") m = Ret ((prev, had), m1) ∧
              Len 1 m1 = Ret ((if had then n else n + 1), m2)) ∧
    (∃ m1 m2, Delete example_hash 1 "b" m = Ret ((prev, had), m1) ∧
              Len 1 m1 = Ret ((if had then n - 1 else n), m2)).
Proof.
  eexists _, _. split; [vm_compute; reflexivity|].
  apply (Len_follows_Set_and_Delete example_hash 1 ltac:(lia)).
  - three_keys_wf.
  - vm_compute. reflexivity.
Defined.

Lemma calls_release_every_mutex_witness :
  let cs : list (@call string nat) :=
    [CSet "a" (Some "x"); CSet "b" (Some "y");
     CSetAccept "a" nil (Some (λ _ _, false));
     CDeleteAccept "b" (Some (λ _ _, false));
     CRange (λ _ _ n, (false, S n)) 0%nat; CLen] in
  ∃ rs m, run example_hash 1 cs (New 0) = Ret (rs, m) ∧
          ∀ mu, mu ∈ mus m → mu = sync.zero.
Proof. intros cs. apply (calls_release_every_mutex example_hash 1). lia. Defined.

Lemma entries_stay_in_their_shard_witness :
  ∃ rs m, run (St := nat) example_hash 1 three_sets (New 0) = Ret (rs, m) ∧
    (∀ i store key v,
       maps m !! i = Some store → rhh.data store !! key = Some v →
       choose example_hash m key = Z.of_nat i ∧
       ∃ m', Get example_hash 1 key m = Ret ((v, true), m')) ∧
    (∀ i j s1 s2 key,
       maps m !! i = Some s1 → maps m !! j = Some s2 →
       is_Some (rhh.data s1 !! key) → is_Some (rhh.data s2 !! key) → i = j).
Proof. apply (entries_stay_in_their_shard example_hash 1). lia. Defined.

Lemma initDo_runs_once_witness :
  ∃ m0, initDo 1 (New (T := string) 24) = Ret m0 ∧ initDo 1 m0 = Ret m0 ∧
    ∀ c : @call string nat, ∃ r m',
      do_call example_hash 1 c m0 = Ret (r, m') ∧ init m' = true ∧ cap m' = cap m0 ∧
      shards m' = shards m0 ∧ mus m' = mus m0 ∧ length (maps m') = length (maps m0).
Proof. apply (initDo_runs_once example_hash 1 ltac:(lia)), New_wf. Defined.

Lemma Range_visits_every_entry_once_witness :
  ∃ rs m, run (St := nat) example_hash 1 three_sets (New 0) = Ret (rs, m) ∧
  ∃ l m',
    Range 1 (λ key value acc, (true, (key, value) :: acc)) [] m = Ret (l, m') ∧
    NoDup l.*1 ∧
    (∀ k v, (k, v) ∈ l ↔ ∃ m2, Get example_hash 1 k m = Ret ((v, true), m2)) ∧
    (Z.of_nat (length l) < 2 ^ 63 → ∃ m2, Len 1 m = Ret (Z.of_nat (length l), m2)).
Proof.
  eexists _, _. split; [vm_compute; reflexivity|].
  apply (Range_visits_every_entry_once example_hash 1 ltac:(lia)). three_keys_wf.
Defined.

Lemma Range_without_entries_witness :
  ∃ m', Range (T := string) 1 (λ _ _ (n : nat), (true, S n)) 0%nat (New 0) = Ret (0%nat, m').
Proof.
  apply (Range_without_entries example_hash 1 ltac:(lia)); [apply New_wf|].
  intros k.
  destruct (Get_refines (T := string) example_hash 1 ltac:(lia) k (New 0) (New_wf _ _ 0))
    as (m' & HG & _).
  exists m'. rewrite HG. reflexivity.
Defined.

Lemma calls_deadlock_on_a_held_shard_witness :
  ∃ rs m, run (St := nat) example_hash 1 three_sets (New 0) = Ret (rs, m) ∧
    let held := set_mus m (<[Z.to_nat (choose example_hash m "hello") :=
                               {| sync.writer := true; sync.readers := 0 |}]> (mus m)) in
    (∀ value, Set_ example_hash 1 "hello" value held = Fail Deadlock) ∧
    Delete example_hash 1 "hello" held = Fail Deadlock ∧
    (∀ value accept, SetAccept example_hash 1 "hello" value accept held = Fail Deadlock) ∧
    (∀ accept, DeleteAccept example_hash 1 "hello" accept held = Fail Deadlock) ∧
    (true = true → Get example_hash 1 "hello" held = Fail Deadlock).
Proof.
  eexists _, _. split; [vm_compute; reflexivity|]. intros held.
  apply (calls_deadlock_on_a_held_shard example_hash 1 "hello" held
           {| sync.writer := true; sync.readers := 0 |}).
  - vm_compute. reflexivity.
  - vm_compute. discriminate.
  - vm_compute. reflexivity.
  - left. reflexivity.
Defined.

Lemma Get_under_a_read_lock_witness :
  ∃ rs m, run (St := nat) example_hash 1 three_sets (New 0) = Ret (rs, m) ∧
    let n := Z.to_nat (choose example_hash m "hello") in
    let held := set_mus m (<[n := {| sync.writer := false; sync.readers := 1 |}]> (mus m)) in
    ∃ store, maps held !! n = Some store ∧
             rhh.Get "hello" store = (Some "world", true) ∧
             Get example_hash 1 "hello" held = Ret (rhh.Get "hello" store, held).
Proof.
  eexists _, _. split; [vm_compute; reflexivity|]. intros n held.
  eexists. split; [vm_compute; reflexivity|]. split; [vm_compute; reflexivity|].
  apply (Get_under_a_read_lock example_hash 1 "hello" held
           {| sync.writer := false; sync.readers := 1 |}).
  - vm_compute. reflexivity.
  - vm_compute. discriminate.
  - vm_compute. reflexivity.
  - reflexivity.
  - vm_compute. reflexivity.
Defined.

Lemma other_shards_stay_available_witness :
  ∃ rs m, run (St := nat) example_hash 1 three_sets (New 0) = Ret (rs, m) ∧
    let n := Z.to_nat (choose example_hash m "hello") in
    let mu := {| sync.writer := true; sync.readers := 0 |} in
    ∃ r m1 g,
      Set_ example_hash 1 "b" (Some "z") m = Ret (r, m1) ∧
      Set_ example_hash 1 "b" (Some "z") (set_mus m (<[n := mu]> (mus m)))
        = Ret (r, set_mus m1 (<[n := mu]> (mus m1))) ∧
      Get example_hash 1 "b" m = Ret (g, m) ∧
      Get example_hash 1 "b" (set_mus m (<[n := mu]> (mus m)))
        = Ret (g, set_mus m (<[n := mu]> (mus m))).
Proof.
  eexists _, _. split; [vm_compute; reflexivity|]. intros n mu.
  apply (other_shards_stay_available example_hash 1 ltac:(lia)).
  - three_keys_ready.
  - vm_compute. discriminate.
Defined.

Lemma Len_deadlocks_while_a_mutex_is_held_witness :
  ∃ rs m, run (St := nat) example_hash 1 three_sets (New 0) = Ret (rs, m) ∧
    Len 1 (set_mus m (<[13%nat := {| sync.writer := false; sync.readers := 1 |}]> (mus m)))
    = Fail Deadlock.
Proof.
  eexists _, _. split; [vm_compute; reflexivity|].
  apply (Len_deadlocks_while_a_mutex_is_held example_hash 1 ltac:(lia)).
  - three_keys_ready.
  - vm_compute. lia.
  - right. discriminate.
Defined.

Lemma shard_loop_ends_witness :
  ∃ k, 0 ≤ k ≤ 62 ∧
       to_int (3 * 16) ≤ 2 ^ k ∧
       (∀ i, 0 ≤ i < k → 2 ^ i < to_int (3 * 16)) ∧
       (∀ fuel, (62 ≤ fuel)%nat → grow_shards 3 fuel 1 = Ret (2 ^ k)) ∧
       ∃ m0 : @Map string,
         initDo 3 (New 1000) = Ret m0 ∧ shards m0 = 2 ^ k ∧
         length (mus m0) = Z.to_nat (2 ^ k) ∧ length (maps m0) = Z.to_nat (2 ^ k).
Proof. apply (shard_loop_ends 3 1000). vm_compute. discriminate. Defined.

Lemma shard_loop_never_ends_witness :
  (∀ fuel, grow_shards (2 ^ 58 + 1) fuel 1 = Fail NoTermination) ∧
  initDo (2 ^ 58 + 1) (New (T := string) 0) = Fail NoTermination ∧
  (∀ key value,
     Set_ example_hash (2 ^ 58 + 1) key value (New (T := string) 0)
     = Fail NoTermination) ∧
  (∀ key, Get example_hash (2 ^ 58 + 1) key (New (T := string) 0) = Fail NoTermination) ∧
  Len (2 ^ 58 + 1) (New (T := string) 0) = Fail NoTermination.
Proof. apply (shard_loop_never_ends example_hash (2 ^ 58 + 1) 0). vm_compute. reflexivity. Defined.

Lemma randKey_letters_witness :
  ∃ key, randKey (λ i, Z.of_nat i * 37 + 250) 5 = Ret key ∧
         String.length key = 5%nat ∧
         Forall (λ c, (97 ≤ Ascii.N_of_ascii c ≤ 122)%N)
                (String.list_ascii_of_string key).
Proof. apply (randKey_letters (λ i, Z.of_nat i * 37 + 250) 5). lia. Defined.
